(** * laney: bounded deque and binary-heap priority queue

    A shallow embedding of [deque.go], of the priority queue source and of
    the stack and queue adapters of the [laney] package, with the properties
    its specification states and further properties of the code.

    Conventions.
    - A Go [int] is a [Z].  The code only compares priorities, and the
      indices it computes ([k/2], [2*k], [j+1]) stay within the length of a
      slice, so no arithmetic of the program can wrap around.
    - The reader/writer lock of each container is not modelled: every method
      holds the lock for its whole body, so a method is one atomic state
      transition, which is what the functions below describe.
    - A method that mutates its receiver becomes a function returning the
      method's result together with the new receiver.
    - [var nothing T] is the zero value of [T], supplied by the class
      [GoZero].
    - The deque keeps its items in a [container/list], whose elements hold
      a value of type [any], and reads them back with the type assertion
      [.(T)].  The assertion panics on the nil interface, which is what a
      nil value of an interface type [T] becomes when it is stored; the
      class [GoBoxed] tells which values of [T] those are. *)

From stdpp Require Import base list strings.
From Stdlib Require Import ZArith Lia Sorted Permutation.

Local Open Scope Z_scope.

(** The zero value of a Go type. *)
Class GoZero (T : Type) : Type := zero_value : T.

#[export] Instance string_GoZero : GoZero string := EmptyString.
#[export] Instance Z_GoZero : GoZero Z := 0.

(** [nil_boxed v]: the value [v], converted to [any], is the nil
    interface.  It is [false] throughout for a type that is not an
    interface type, and [true] at the nil value of an interface type. *)
Class GoBoxed (T : Type) : Type := nil_boxed : T -> bool.

#[export] Instance string_GoBoxed : GoBoxed string := fun _ => false.
#[export] Instance Z_GoBoxed : GoBoxed Z := fun _ => false.

(** An interface type whose non-nil values hold an [A]: [None] is nil. *)
#[export] Instance option_GoZero (A : Type) : GoZero (option A) := None.
#[export] Instance option_GoBoxed (A : Type) : GoBoxed (option A) :=
  fun v => match v with
           | None => true
           | Some _ => false
           end.

(** ** Deque ([deque.go]) *)

Module Deque.

(** The part of Go's [container/list] the deque uses.  A [list.List] is a
    doubly linked list; its abstract content is the sequence of the values
    of its elements from front to back.  [Front] and [Back] return an
    element pointer, [nil] on an empty list; here they return the value of
    that element, [None] for [nil].  An element holds its value as an
    [any]; every value is stored by [Append] or [Prepend] from type [T],
    so the list is kept as a list of [T], and the methods of the deque
    read a value back through [assertT], the type assertion [.(T)]. *)
Module GoList.
Section GoList.
Context {T : Type}.

Definition New : list T := [].
Definition Len (l : list T) : Z := Z.of_nat (length l).
Definition PushBack (l : list T) (v : T) : list T := l ++ [v].
Definition PushFront (l : list T) (v : T) : list T := v :: l.
Definition Front (l : list T) : option T := head l.
Definition Back (l : list T) : option T := last l.
(** [Remove(e)] for [e = Front()] and for [e = Back()]. *)
Definition RemoveFront (l : list T) : list T := tail l.
Definition RemoveBack (l : list T) : list T := removelast l.
End GoList.
End GoList.

Section Deque.
Context {T : Type} `{GoZero T} `{GoBoxed T}.

(** What a method that may panic does: it returns a value or it panics.
    The deferred [Unlock] runs in both cases, and the deque is left in the
    state the method reached. *)
Inductive outcome : Type :=
| Returns (v : T)
| Panics.

(** The type assertion [x.(T)] on a stored value: it panics on the nil
    interface and returns the value otherwise. *)
Definition assertT (v : T) : outcome :=
  if nil_boxed v then Panics else Returns v.

Record Deque : Type := mkDeque {
  container : list T;
  capacity : Z
}.

Definition NewCappedDeque (capacity : Z) : Deque :=
  {| container := GoList.New; capacity := capacity |}.

Definition NewDeque : Deque := NewCappedDeque (-1).

Definition Append (s : Deque) (item : T) : bool * Deque :=
  if (capacity s <? 0) || (GoList.Len (container s) <? capacity s) then
    (true, {| container := GoList.PushBack (container s) item;
              capacity := capacity s |})
  else (false, s).

Definition Prepend (s : Deque) (item : T) : bool * Deque :=
  if (capacity s <? 0) || (GoList.Len (container s) <? capacity s) then
    (true, {| container := GoList.PushFront (container s) item;
              capacity := capacity s |})
  else (false, s).

(** [Remove] takes the element out of the list before the assertion on
    its value is evaluated. *)
Definition Pop (s : Deque) : outcome * Deque :=
  match GoList.Back (container s) with
  | Some item =>
      (assertT item, {| container := GoList.RemoveBack (container s);
                        capacity := capacity s |})
  | None => (Returns zero_value, s)
  end.

Definition Shift (s : Deque) : outcome * Deque :=
  match GoList.Front (container s) with
  | Some item =>
      (assertT item, {| container := GoList.RemoveFront (container s);
                        capacity := capacity s |})
  | None => (Returns zero_value, s)
  end.

Definition First (s : Deque) : outcome :=
  match GoList.Front (container s) with
  | Some item => assertT item
  | None => Returns zero_value
  end.

Definition Last (s : Deque) : outcome :=
  match GoList.Back (container s) with
  | Some item => assertT item
  | None => Returns zero_value
  end.

Definition Size (s : Deque) : Z := GoList.Len (container s).

Definition Capacity (s : Deque) : Z := capacity s.

Definition Empty (s : Deque) : bool := GoList.Len (container s) =? 0.

Definition Full (s : Deque) : bool :=
  (0 <=? capacity s) && (capacity s <=? GoList.Len (container s)).

(** *** Sequences of calls *)

Inductive op : Type :=
| OpAppend (item : T)
| OpPrepend (item : T)
| OpPop
| OpShift.

(** What a call returns, [RetPanic] for a call that panics. *)
Inductive ret : Type :=
| RetBool (b : bool)
| RetItem (item : T)
| RetPanic.

Definition ret_of (r : outcome) : ret :=
  match r with
  | Returns v => RetItem v
  | Panics => RetPanic
  end.

Definition call (s : Deque) (o : op) : ret * Deque :=
  match o with
  | OpAppend item => let (b, s') := Append s item in (RetBool b, s')
  | OpPrepend item => let (b, s') := Prepend s item in (RetBool b, s')
  | OpPop => let (r, s') := Pop s in (ret_of r, s')
  | OpShift => let (r, s') := Shift s in (ret_of r, s')
  end.

(** The results of a sequence of calls, and the final deque.  A call that
    panics leaves the deque unlocked in the state it reached, and the
    calls that follow are those of a caller that recovers; the sequence up
    to a panic is itself a sequence of calls. *)
Fixpoint calls (s : Deque) (ops : list op) : list ret * Deque :=
  match ops with
  | [] => ([], s)
  | o :: ops' =>
      let (r, s') := call s o in
      let (rs, s'') := calls s' ops' in
      (r :: rs, s'')
  end.

Definition is_insert (o : op) : bool :=
  match o with
  | OpAppend _ | OpPrepend _ => true
  | OpPop | OpShift => false
  end.

(** An insert succeeds when it returns [true]; a removal succeeds when it
    finds an element to remove, that is when the deque is not empty
    before the call (the element is removed also when the assertion on its
    value then panics). *)
Definition succeeds (s : Deque) (o : op) : bool :=
  match o with
  | OpAppend item => fst (Append s item)
  | OpPrepend item => fst (Prepend s item)
  | OpPop | OpShift => negb (Empty s)
  end.

(** Number of successful inserts and of successful removals in a run. *)
Fixpoint tally (s : Deque) (ops : list op) : Z * Z :=
  match ops with
  | [] => (0, 0)
  | o :: ops' =>
      let '(ins, rem) := tally (snd (call s o)) ops' in
      if succeeds s o then
        if is_insert o then (ins + 1, rem) else (ins, rem + 1)
      else (ins, rem)
  end.

(** [Append] of each item of a list in turn. *)
Fixpoint appends (s : Deque) (items : list T) : list bool * Deque :=
  match items with
  | [] => ([], s)
  | item :: items' =>
      let (b, s') := Append s item in
      let (bs, s'') := appends s' items' in
      (b :: bs, s'')
  end.

End Deque.
Arguments Deque T : clear implicits.
Arguments outcome T : clear implicits.

End Deque.

(** ** Priority queue (heap priority queue source) *)

Module PQueue.

(** Outcome of running Go code: a value, a run-time panic (index out of
    range, nil pointer dereference), or the exhaustion of the iteration
    bound that the model gives to a loop. *)
Inductive result (A : Type) : Type :=
| Ok (a : A)
| Panic
| OutOfFuel.
Arguments Ok {A} a.
Arguments Panic {A}.
Arguments OutOfFuel {A}.

Definition bind {A B : Type} (m : result A) (f : A -> result B) : result B :=
  match m with
  | Ok a => f a
  | Panic => Panic
  | OutOfFuel => OutOfFuel
  end.

Notation "'let*' x ':=' m 'in' k" := (bind m (fun x => k))
  (at level 10, x name, m at level 100, k at level 200).

(** Slices.  [index s i] is [s[i]], [store s i a] is [s[i] = a], both with
    Go's bounds check; [reslice s h] is [s[0:h]].  The capacity of a slice
    is not modelled: [reslice] is defined for [h] up to the length. *)
Definition index {A : Type} (s : list A) (i : Z) : result A :=
  if i <? 0 then Panic
  else match s !! Z.to_nat i with
       | Some a => Ok a
       | None => Panic
       end.

Definition store {A : Type} (s : list A) (i : Z) (a : A) : result (list A) :=
  if (0 <=? i) && (i <? Z.of_nat (length s)) then Ok (<[Z.to_nat i := a]> s)
  else Panic.

Definition reslice {A : Type} (s : list A) (h : Z) : result (list A) :=
  if (0 <=? h) && (h <=? Z.of_nat (length s)) then Ok (take (Z.to_nat h) s)
  else Panic.

(** Dereference of a pointer, [None] being [nil]. *)
Definition deref {A : Type} (p : option A) : result A :=
  match p with
  | Some a => Ok a
  | None => Panic
  end.

(** PQType represents a priority queue ordering kind. *)
Inductive PQType : Type :=
| MAXPQ
| MINPQ.

Definition max (i j : Z) : bool := i <? j.

Definition min (i j : Z) : bool := i >? j.

Section PQueue.
Context {T : Type} `{GoZero T}.

Record item : Type := newItem {
  value : T;
  priority : Z
}.

Record PQueue : Type := mkPQueue {
  items : list (option item);
  elemsCount : Z;
  comparator : Z -> Z -> bool
}.

Definition NewPQueue (pqType : PQType) : PQueue :=
  let cmp := match pqType with
             | MAXPQ => max
             | MINPQ => min
             end in
  {| items := [None]; elemsCount := 0; comparator := cmp |}.

Definition size (pq : PQueue) : Z := elemsCount pq.

Definition less (pq : PQueue) (i j : Z) : result bool :=
  let* pi := index (items pq) i in
  let* a := deref pi in
  let* pj := index (items pq) j in
  let* b := deref pj in
  Ok (comparator pq (priority a) (priority b)).

Definition exch (pq : PQueue) (i j : Z) : result PQueue :=
  let* tmpItem := index (items pq) i in
  let* xj := index (items pq) j in
  let* s1 := store (items pq) i xj in
  let* s2 := store s1 j tmpItem in
  Ok {| items := s2; elemsCount := elemsCount pq;
        comparator := comparator pq |}.

(** The loop of [swim]; one unit of fuel per evaluation of the loop
    condition. *)
Fixpoint swim_loop (fuel : nat) (pq : PQueue) (k : Z) : result PQueue :=
  match fuel with
  | O => OutOfFuel
  | S fuel' =>
      if 1 <? k then
        let* b := less pq (k ÷ 2) k in
        if b then
          let* pq' := exch pq (k ÷ 2) k in
          swim_loop fuel' pq' (k ÷ 2)
        else Ok pq
      else Ok pq
  end.

(** [k] at least halves at each iteration. *)
Definition swim (pq : PQueue) (k : Z) : result PQueue :=
  swim_loop (S (Z.to_nat k)) pq k.

(** The loop of [sink]. *)
Fixpoint sink_loop (fuel : nat) (pq : PQueue) (k : Z) : result PQueue :=
  match fuel with
  | O => OutOfFuel
  | S fuel' =>
      if 2 * k <=? size pq then
        let j := 2 * k in
        let* c := (if j <? size pq then less pq j (j + 1) else Ok false) in
        let j := if c then j + 1 else j in
        let* b := less pq k j in
        if negb b then Ok pq
        else
          let* pq' := exch pq k j in
          sink_loop fuel' pq' j
      else Ok pq
  end.

(** From [k >= 1] on, [k] grows at each iteration and stays at most
    [size]. *)
Definition sink (pq : PQueue) (k : Z) : result PQueue :=
  sink_loop (S (Z.to_nat (size pq))) pq k.

Definition Push (pq : PQueue) (value : T) (priority : Z) : result PQueue :=
  let item := newItem value priority in
  let pq1 := {| items := items pq ++ [Some item];
                elemsCount := elemsCount pq + 1;
                comparator := comparator pq |} in
  swim pq1 (size pq1).

Definition Pop (pq : PQueue) : result ((T * Z) * PQueue) :=
  if size pq <? 1 then Ok ((zero_value, 0), pq)
  else
    let* max := index (items pq) 1 in
    let* pq1 := exch pq 1 (size pq) in
    let* s := reslice (items pq1) (size pq1) in
    let pq2 := {| items := s; elemsCount := elemsCount pq1 - 1;
                  comparator := comparator pq1 |} in
    let* pq3 := sink pq2 1 in
    let* m := deref max in
    Ok ((value m, priority m), pq3).

Definition Head (pq : PQueue) : result (T * Z) :=
  if size pq <? 1 then Ok (zero_value, 0)
  else
    let* p1 := index (items pq) 1 in
    let* m1 := deref p1 in
    let headValue := value m1 in
    let* p2 := index (items pq) 1 in
    let* m2 := deref p2 in
    let headPriority := priority m2 in
    Ok (headValue, headPriority).

Definition Size (pq : PQueue) : Z := size pq.

Definition Empty (pq : PQueue) : bool := size pq =? 0.

(** *** Sequences of calls *)

Inductive op : Type :=
| OpPush (value : T) (priority : Z)
| OpPop.

(** The queue after a sequence of [Push] and [Pop] calls. *)
Fixpoint run (pq : PQueue) (ops : list op) : result PQueue :=
  match ops with
  | [] => Ok pq
  | OpPush v p :: ops' => let* pq' := Push pq v p in run pq' ops'
  | OpPop :: ops' => let* r := Pop pq in run (snd r) ops'
  end.

(** [Push] of each pair of a list in turn. *)
Fixpoint pushes (pq : PQueue) (l : list (T * Z)) : result PQueue :=
  match l with
  | [] => Ok pq
  | (v, p) :: l' => let* pq' := Push pq v p in pushes pq' l'
  end.

(** [n] successive [Pop] calls: the pairs returned, in order, and the queue
    that is left. *)
Fixpoint pops (n : nat) (pq : PQueue) : result (list (T * Z) * PQueue) :=
  match n with
  | O => Ok ([], pq)
  | S n' =>
      let* r := Pop pq in
      let* rs := pops n' (snd r) in
      Ok (fst r :: fst rs, snd rs)
  end.

(** *** Specification vocabulary *)

(** [dominates ty a b]: an entry of priority [a] may be the parent of an
    entry of priority [b]. *)
Definition dominates (ty : PQType) (a b : Z) : Prop :=
  match ty with
  | MAXPQ => b <= a
  | MINPQ => a <= b
  end.

(** The entry at a heap index, if the index is in range and not nil. *)
Definition entry (pq : PQueue) (k : Z) : option item :=
  if k <? 0 then None else mjoin (items pq !! Z.to_nat k).

(** The dominance invariant over the live indices [1 .. elemsCount]. *)
Definition heap_ordered (ty : PQType) (pq : PQueue) : Prop :=
  forall k, 1 < k <= elemsCount pq ->
    exists p c, entry pq (k / 2) = Some p /\ entry pq k = Some c /\
                dominates ty (priority p) (priority c).

(** The representation invariant of the data model. *)
Definition rep_inv (pq : PQueue) : Prop :=
  elemsCount pq = Z.of_nat (length (items pq)) - 1 /\
  items pq !! 0%nat = Some None.

(** The stored pairs: every non-nil entry of the heap array. *)
Definition pair_of (it : item) : T * Z := (value it, priority it).

Definition stored (pq : PQueue) : list (T * Z) :=
  pair_of <$> omap id (items pq).

(** *** Vocabulary of the proofs *)

Definition comparator_of (ty : PQType) : Z -> Z -> bool :=
  match ty with
  | MAXPQ => max
  | MINPQ => min
  end.

(** The priority at a heap index (0 where there is no entry). *)
Definition prio (pq : PQueue) (k : Z) : Z :=
  match entry pq k with
  | Some it => priority it
  | None => 0
  end.

(** Every index in [1 .. elemsCount] holds an entry. *)
Definition live (pq : PQueue) : Prop :=
  forall k, 1 <= k <= elemsCount pq -> is_Some (entry pq k).

(** A well-formed queue of ordering [ty]. *)
Definition wf (ty : PQType) (pq : PQueue) : Prop :=
  rep_inv pq /\ live pq /\ comparator pq = comparator_of ty.

(** The edge from index [i] down to index [j] is in order. *)
Definition ord (ty : PQType) (pq : PQueue) (i j : Z) : Prop :=
  dominates ty (prio pq i) (prio pq j).

(** The heap is in order except, possibly, on the edge from [k] up to its
    parent; the parent of [k] dominates the children of [k]. *)
Definition swim_pre (ty : PQType) (pq : PQueue) (k : Z) : Prop :=
  (forall j, 1 < j <= elemsCount pq -> j <> k -> ord ty pq (j / 2) j) /\
  (forall j, 1 < j <= elemsCount pq -> j / 2 = k -> 1 < k ->
     ord ty pq (k / 2) j).

(** The heap is in order except, possibly, on the edges from [k] down to
    its children; the parent of [k] dominates the children of [k]. *)
Definition sink_pre (ty : PQType) (pq : PQueue) (k : Z) : Prop :=
  (forall j, 1 < j <= elemsCount pq -> j / 2 <> k -> ord ty pq (j / 2) j) /\
  (forall j, 1 < j <= elemsCount pq -> j / 2 = k -> 1 < k ->
     ord ty pq (k / 2) j).

(** [j] is a child of [k] that dominates every child of [k]: the child
    that [sink] compares the node with. *)
Definition favoured (ty : PQType) (pq : PQueue) (k j : Z) : Prop :=
  j / 2 = k /\ 1 < j <= elemsCount pq /\
  forall x, 1 < x <= elemsCount pq -> x / 2 = k ->
            dominates ty (prio pq j) (prio pq x).

(** Every edge between live indices is in order. *)
Definition all_ord (ty : PQType) (pq : PQueue) : Prop :=
  forall j, 1 < j <= elemsCount pq -> ord ty pq (j / 2) j.

End PQueue.
Arguments item T : clear implicits.
Arguments PQueue T : clear implicits.

End PQueue.

(** ** Stack (stack source) *)

Module Stack.
Section Stack.
Context {T : Type} `{GoZero T} `{GoBoxed T}.

(** A Stack embeds a pointer to a Deque. *)
Record Stack : Type := mkStack {
  Deque : Deque.Deque T
}.

Definition NewStack : Stack := {| Deque := Deque.NewDeque |}.

(** [Push] calls [Prepend] and drops the boolean it returns. *)
Definition Push (s : Stack) (item : T) : Stack :=
  {| Deque := snd (Deque.Prepend (Deque s) item) |}.

Definition Pop (s : Stack) : Deque.outcome T * Stack :=
  let (r, d) := Deque.Shift (Deque s) in (r, {| Deque := d |}).

Definition Head (s : Stack) : Deque.outcome T := Deque.First (Deque s).

(** [Push] of each item of a list in turn. *)
Fixpoint pushes (s : Stack) (items : list T) : Stack :=
  match items with
  | [] => s
  | item :: items' => pushes (Push s item) items'
  end.

(** [n] successive [Pop] calls: their results, in order, and the stack
    that is left. *)
Fixpoint pops (n : nat) (s : Stack) : list (Deque.outcome T) * Stack :=
  match n with
  | O => ([], s)
  | S n' =>
      let (r, s') := Pop s in
      let (rs, s'') := pops n' s' in
      (r :: rs, s'')
  end.

End Stack.
Arguments Stack T : clear implicits.
End Stack.

(** ** Queue ([queue.go]) *)

Module Queue.
Section Queue.
Context {T : Type} `{GoZero T} `{GoBoxed T}.

(** A Queue embeds a pointer to a Deque. *)
Record Queue : Type := mkQueue {
  Deque : Deque.Deque T
}.

Definition NewQueue : Queue := {| Deque := Deque.NewDeque |}.

(** [Enqueue] calls [Prepend] and drops the boolean it returns. *)
Definition Enqueue (q : Queue) (item : T) : Queue :=
  {| Deque := snd (Deque.Prepend (Deque q) item) |}.

Definition Dequeue (q : Queue) : Deque.outcome T * Queue :=
  let (r, d) := Deque.Pop (Deque q) in (r, {| Deque := d |}).

Definition Head (q : Queue) : Deque.outcome T := Deque.Last (Deque q).

(** [Enqueue] of each item of a list in turn. *)
Fixpoint enqueues (q : Queue) (items : list T) : Queue :=
  match items with
  | [] => q
  | item :: items' => enqueues (Enqueue q item) items'
  end.

(** [n] successive [Dequeue] calls: their results, in order, and the queue
    that is left. *)
Fixpoint dequeues (n : nat) (q : Queue) : list (Deque.outcome T) * Queue :=
  match n with
  | O => ([], q)
  | S n' =>
      let (r, q') := Dequeue q in
      let (rs, q'') := dequeues n' q' in
      (r :: rs, q'')
  end.

End Queue.
Arguments Queue T : clear implicits.
End Queue.

(** * Properties of the deque *)

Module DequeFacts.
Import Deque.

Section DequeFacts.
Context {T : Type} `{GoZero T} `{GoBoxed T}.

Implicit Types (s : Deque T) (item : T) (ops : list (@op T)).

Lemma Len_nonneg (l : list T) : 0 <= GoList.Len l.
Proof. unfold GoList.Len. lia. Qed.

Lemma Len_zero_nil (l : list T) : GoList.Len l = 0 -> l = [].
Proof. unfold GoList.Len. destruct l; simpl; [reflexivity | lia]. Qed.

Lemma Len_PushBack (l : list T) item :
  GoList.Len (GoList.PushBack l item) = GoList.Len l + 1.
Proof. unfold GoList.Len, GoList.PushBack. rewrite length_app. simpl. lia. Qed.

Lemma Len_PushFront (l : list T) item :
  GoList.Len (GoList.PushFront l item) = GoList.Len l + 1.
Proof. unfold GoList.Len, GoList.PushFront. simpl. lia. Qed.

Lemma Back_None (l : list T) : GoList.Back l = None -> l = [].
Proof. unfold GoList.Back. apply last_None. Qed.

Lemma Len_RemoveBack (l : list T) x :
  GoList.Back l = Some x ->
  GoList.Len (GoList.RemoveBack l) = GoList.Len l - 1.
Proof.
  unfold GoList.Back, GoList.RemoveBack, GoList.Len. intros Hl.
  destruct l as [|y l]; [discriminate|].
  assert (Hlen := removelast_firstn_len (y :: l)).
  rewrite Hlen, length_firstn. simpl. lia.
Qed.

Lemma Len_RemoveFront (l : list T) x :
  GoList.Front l = Some x ->
  GoList.Len (GoList.RemoveFront l) = GoList.Len l - 1.
Proof.
  unfold GoList.Front, GoList.RemoveFront, GoList.Len.
  destruct l as [|y l]; [discriminate|]. simpl. lia.
Qed.

(** An insert into a deque that has room, and into one that has none. *)
Lemma Append_room s item :
  capacity s < 0 \/ Size s < capacity s ->
  Append s item = (true, {| container := container s ++ [item];
                            capacity := capacity s |}).
Proof.
  unfold Append, Size. intros Hroom.
  destruct (Z.ltb_spec (capacity s) 0),
    (Z.ltb_spec (GoList.Len (container s)) (capacity s));
    simpl; try reflexivity; lia.
Qed.

Lemma Prepend_room s item :
  capacity s < 0 \/ Size s < capacity s ->
  Prepend s item = (true, {| container := item :: container s;
                             capacity := capacity s |}).
Proof.
  unfold Prepend, Size. intros Hroom.
  destruct (Z.ltb_spec (capacity s) 0),
    (Z.ltb_spec (GoList.Len (container s)) (capacity s));
    simpl; try reflexivity; lia.
Qed.

Lemma Append_full s item :
  0 <= capacity s <= Size s -> Append s item = (false, s).
Proof.
  unfold Append, Size. intros Hfull.
  destruct (Z.ltb_spec (capacity s) 0),
    (Z.ltb_spec (GoList.Len (container s)) (capacity s));
    simpl; try reflexivity; lia.
Qed.

Lemma Prepend_full s item :
  0 <= capacity s <= Size s -> Prepend s item = (false, s).
Proof.
  unfold Prepend, Size. intros Hfull.
  destruct (Z.ltb_spec (capacity s) 0),
    (Z.ltb_spec (GoList.Len (container s)) (capacity s));
    simpl; try reflexivity; lia.
Qed.

Lemma appends_room (xs : list T) : forall s,
  0 <= capacity s ->
  Size s + Z.of_nat (length xs) <= capacity s ->
  appends s xs = (repeat true (length xs),
                  {| container := container s ++ xs;
                     capacity := capacity s |}).
Proof.
  induction xs as [|x xs IH]; intros s Hc Hroom; simpl.
  - rewrite app_nil_r. destruct s; reflexivity.
  - simpl length in Hroom.
    rewrite Append_room by lia.
    rewrite IH; simpl.
    + rewrite <- app_assoc. reflexivity.
    + exact Hc.
    + unfold Size in *. simpl.
      change (container s ++ [x]) with (GoList.PushBack (container s) x).
      rewrite Len_PushBack. lia.
Qed.

Lemma calls_full ops : forall s,
  0 <= capacity s <= Size s ->
  forallb is_insert ops = true ->
  calls s ops = (map (fun _ => RetBool false) ops, s).
Proof.
  induction ops as [|o ops IH]; intros s Hfull Hins; simpl.
  - reflexivity.
  - simpl in Hins. apply andb_prop in Hins as [Ho Hops].
    destruct o as [x|x| |]; simpl in Ho; try discriminate; simpl.
    + rewrite Append_full by exact Hfull. rewrite IH by assumption.
      reflexivity.
    + rewrite Prepend_full by exact Hfull. rewrite IH by assumption.
      reflexivity.
Qed.

(** A removal takes one element from a deque that is not empty and leaves
    an empty one as it is. *)
Lemma Pop_empty s : Empty s = true -> Pop s = (Returns zero_value, s).
Proof.
  unfold Empty, Pop. intros He. apply Z.eqb_eq, Len_zero_nil in He.
  rewrite He. reflexivity.
Qed.

Lemma Shift_empty s : Empty s = true -> Shift s = (Returns zero_value, s).
Proof.
  unfold Empty, Shift. intros He. apply Z.eqb_eq, Len_zero_nil in He.
  rewrite He. reflexivity.
Qed.

Lemma Pop_nonempty s :
  Empty s = false ->
  Size (snd (Pop s)) = Size s - 1 /\ capacity (snd (Pop s)) = capacity s.
Proof.
  unfold Empty, Pop, Size. intros He. apply Z.eqb_neq in He.
  destruct (GoList.Back (container s)) as [x|] eqn:Hb; simpl.
  - split; [|reflexivity]. apply Len_RemoveBack with x. exact Hb.
  - apply Back_None in Hb. rewrite Hb in He. contradiction He. reflexivity.
Qed.

Lemma Shift_nonempty s :
  Empty s = false ->
  Size (snd (Shift s)) = Size s - 1 /\ capacity (snd (Shift s)) = capacity s.
Proof.
  unfold Empty, Shift, Size. intros He. apply Z.eqb_neq in He.
  destruct (GoList.Front (container s)) as [x|] eqn:Hf; simpl.
  - split; [|reflexivity]. apply Len_RemoveFront with x. exact Hf.
  - destruct (container s); [contradiction He; reflexivity | discriminate].
Qed.

(** One call on an unbounded deque changes the size by the success it
    reports. *)
Lemma call_unbounded s o :
  capacity s < 0 ->
  capacity (snd (call s o)) < 0 /\
  Size (snd (call s o)) =
    Size s + (if succeeds s o then if is_insert o then 1 else -1 else 0).
Proof.
  intros Hc. destruct o as [x|x| |]; simpl.
  - rewrite Append_room by lia. simpl. split; [exact Hc|].
    unfold Size. simpl.
    change (container s ++ [x]) with (GoList.PushBack (container s) x).
    rewrite Len_PushBack. lia.
  - rewrite Prepend_room by lia. simpl. split; [exact Hc|].
    unfold Size. simpl.
    change (x :: container s) with (GoList.PushFront (container s) x).
    rewrite Len_PushFront. lia.
  - destruct (Empty s) eqn:He; simpl.
    + rewrite Pop_empty by exact He. simpl. split; [exact Hc | lia].
    + destruct (Pop_nonempty s He) as [Hsz Hcap].
      destruct (Pop s) as [v s']. simpl in *. split; lia.
  - destruct (Empty s) eqn:He; simpl.
    + rewrite Shift_empty by exact He. simpl. split; [exact Hc | lia].
    + destruct (Shift_nonempty s He) as [Hsz Hcap].
      destruct (Shift s) as [v s']. simpl in *. split; lia.
Qed.

Lemma calls_snd_cons s o ops :
  snd (calls s (o :: ops)) = snd (calls (snd (call s o)) ops).
Proof.
  simpl. destruct (call s o) as [r s']. simpl.
  destruct (calls s' ops) as [rs s'']. reflexivity.
Qed.

Lemma tally_unbounded ops : forall s,
  capacity s < 0 ->
  Size (snd (calls s ops)) = Size s + fst (tally s ops) - snd (tally s ops).
Proof.
  induction ops as [|o ops IH]; intros s Hc.
  - simpl. lia.
  - rewrite calls_snd_cons.
    destruct (call_unbounded s o Hc) as [Hc' Hsz].
    rewrite (IH _ Hc'), Hsz. simpl.
    destruct (tally (snd (call s o)) ops) as [ins rem].
    destruct (succeeds s o), (is_insert o); simpl; lia.
Qed.

(** C4. For a deque created with capacity [c >= 0], the [c] first [Append]
    calls all return [true] and bring [Size] to [c]; from then on every
    [Append] and every [Prepend] returns [false] and leaves the deque as it
    is, for one call and for any sequence of such calls, so [Size] stays
    [c]. *)
Theorem C4_full_deque_rejects_inserts (c : Z) (xs : list T) :
  0 <= c ->
  Z.of_nat (length xs) = c ->
  let s := snd (appends (NewCappedDeque c) xs) in
  fst (appends (NewCappedDeque c) xs) = repeat true (length xs) /\
  Size s = c /\
  (forall item, Append s item = (false, s) /\ Prepend s item = (false, s)) /\
  (forall ops, forallb is_insert ops = true ->
     calls s ops = (map (fun _ => RetBool false) ops, s) /\
     Size (snd (calls s ops)) = c).
Proof.
  intros Hc Hlen s.
  assert (Happ : appends (NewCappedDeque c) xs =
                 (repeat true (length xs),
                  {| container := xs; capacity := c |})).
  { rewrite appends_room; simpl; [reflexivity | exact Hc |].
    unfold Size. simpl. unfold GoList.Len. simpl. lia. }
  subst s. rewrite Happ. simpl.
  assert (Hsz : Size {| container := xs; capacity := c |} = c).
  { unfold Size, GoList.Len. simpl. exact Hlen. }
  assert (Hfull : 0 <= capacity {| container := xs; capacity := c |}
                  <= Size {| container := xs; capacity := c |}).
  { rewrite Hsz. simpl. lia. }
  split; [reflexivity|]. split; [exact Hsz|]. split.
  - intros item. split.
    + apply Append_full, Hfull.
    + apply Prepend_full, Hfull.
  - intros ops Hops. rewrite (calls_full ops _ Hfull Hops).
    split; [reflexivity | exact Hsz].
Qed.

(** C6. After any sequence of [Append], [Prepend], [Pop] and [Shift] calls
    on a deque made by [NewDeque], [Size] is the number of successful
    inserts minus the number of successful removals and is not negative;
    and a [Pop] or a [Shift] on an empty deque returns the zero value and
    leaves the deque as it is. *)
Theorem C6_unbounded_size_is_inserts_minus_removals ops :
  let s := snd (calls NewDeque ops) in
  Size s = fst (tally NewDeque ops) - snd (tally NewDeque ops) /\
  0 <= Size s /\
  (Empty s = true ->
   Pop s = (Returns zero_value, s) /\ Shift s = (Returns zero_value, s)).
Proof.
  intros s. split; [|split].
  - subst s. rewrite tally_unbounded.
    + unfold Size, GoList.Len. simpl. lia.
    + simpl. lia.
  - apply Len_nonneg.
  - intros He. split; [apply Pop_empty | apply Shift_empty]; exact He.
Qed.

(** C7, as amended. Starting from an empty deque that is unbounded or has
    capacity at least 2, with [a] and [b] that are not nil values of an
    interface type, [Prepend a] then [Append b] both succeed, and then
    [First] returns [a] and [Last] returns [b]. *)
Theorem C7_first_last_after_prepend_append s (a b : T) :
  Empty s = true ->
  capacity s < 0 \/ 2 <= capacity s ->
  nil_boxed a = false ->
  nil_boxed b = false ->
  let s1 := snd (Prepend s a) in
  let s2 := snd (Append s1 b) in
  fst (Prepend s a) = true /\ fst (Append s1 b) = true /\
  First s2 = Returns a /\ Last s2 = Returns b.
Proof.
  intros He Hcap Ha Hb. unfold Empty in He.
  apply Z.eqb_eq in He. assert (Hnil := Len_zero_nil _ He).
  assert (Hsz : Size s = 0) by exact He.
  rewrite Prepend_room by lia. simpl.
  rewrite Append_room.
  - simpl. rewrite Hnil. unfold First, Last, assertT. simpl.
    rewrite Ha, Hb. repeat split; reflexivity.
  - simpl. unfold Size. simpl. rewrite Hnil. unfold GoList.Len. simpl. lia.
Qed.

(** A deque of capacity 0 stays as it was created, whatever is called. *)
Lemma calls_zero_capacity ops :
  snd (calls (NewCappedDeque (T:=T) 0) ops) = NewCappedDeque 0.
Proof.
  induction ops as [|o ops IH]; [reflexivity|].
  rewrite calls_snd_cons.
  replace (snd (call (NewCappedDeque 0) o)) with (NewCappedDeque (T:=T) 0);
    [exact IH|].
  destruct o; reflexivity.
Qed.

(** C10. On a deque made by [NewCappedDeque 0], after any sequence of
    calls, [Size] is 0, [Empty] and [Full] both return [true], and every
    [Append] and every [Prepend] returns [false] and changes nothing. *)
Theorem C10_zero_capacity_deque ops :
  let s := snd (calls (NewCappedDeque 0) ops) in
  Size s = 0 /\ Empty s = true /\ Full s = true /\
  (forall item, Append s item = (false, s) /\ Prepend s item = (false, s)).
Proof.
  intros s. subst s. rewrite calls_zero_capacity.
  repeat split; reflexivity.
Qed.

End DequeFacts.

Lemma C4_full_deque_rejects_inserts_witness :
  let s := snd (appends (NewCappedDeque 2) [10; 20]) in
  fst (appends (NewCappedDeque 2) [10; 20]) = repeat true 2 /\
  Size s = 2 /\
  (forall item, Append s item = (false, s) /\ Prepend s item = (false, s)) /\
  (forall ops, forallb is_insert ops = true ->
     calls s ops = (map (fun _ => RetBool false) ops, s) /\
     Size (snd (calls s ops)) = 2).
Proof.
  apply (C4_full_deque_rejects_inserts (T:=Z) 2 [10; 20]).
  - lia.
  - reflexivity.
Defined.

Lemma C6_unbounded_size_is_inserts_minus_removals_witness :
  Pop (snd (calls (NewDeque (T:=Z)) [OpAppend 5; OpPop; OpShift])) =
    (Returns 0, NewDeque).
Proof.
  apply (C6_unbounded_size_is_inserts_minus_removals
           (T:=Z) [OpAppend 5; OpPop; OpShift]).
  reflexivity.
Defined.

Lemma C7_first_last_after_prepend_append_witness :
  let s1 := snd (Prepend (NewCappedDeque 2) 7) in
  let s2 := snd (Append s1 9) in
  fst (Prepend (NewCappedDeque 2) 7) = true /\ fst (Append s1 9) = true /\
  First s2 = Returns 7 /\ Last s2 = Returns 9.
Proof.
  apply (C7_first_last_after_prepend_append (T:=Z) (NewCappedDeque 2) 7 9).
  - reflexivity.
  - right. simpl. lia.
  - reflexivity.
  - reflexivity.
Defined.

(** C7 as stated fails on a deque of capacity 1: [Prepend 7] fills it,
    [Append 9] returns [false], and [Last] returns 7. *)
Lemma C7_counterexample :
  let s := NewCappedDeque (T:=Z) 1 in
  let s1 := snd (Prepend s 7) in
  let s2 := snd (Append s1 9) in
  Empty s = true /\ fst (Append s1 9) = false /\ Last s2 = Returns 7 /\
  ~ (First s2 = Returns 7 /\ Last s2 = Returns 9).
Proof.
  repeat split; try reflexivity.
  intros [_ Hl]. discriminate Hl.
Qed.

End DequeFacts.

(** * Properties of the priority queue *)

Module PQueueFacts.
Import PQueue.

(** ** Slices *)

Section Slices.
Context {A : Type}.
Implicit Types (l : list A).

Lemma insert_Permutation l (i : nat) x y :
  l !! i = Some x -> <[i:=y]> l ≡ₚ y :: delete i l.
Proof.
  intros Hi.
  assert (Hlen : (i < length l)%nat) by (eapply lookup_lt_Some; eauto).
  rewrite (insert_take_drop l i y Hlen), delete_take_drop.
  symmetry. apply Permutation_middle.
Qed.

(** Exchanging two cells of a list permutes it. *)
Lemma swap_Permutation l (i j : nat) x y :
  l !! i = Some x -> l !! j = Some y ->
  <[j:=x]> (<[i:=y]> l) ≡ₚ l.
Proof.
  intros Hi Hj. destruct (decide (i = j)) as [->|Hne].
  - rewrite list_insert_insert_eq. rewrite list_insert_id; [reflexivity|].
    exact Hi.
  - assert (Hj1 : <[i:=y]> l !! j = Some y).
    { rewrite list_lookup_insert_ne by exact Hne. exact Hj. }
    assert (Htail : delete j (<[i:=y]> l) ≡ₚ delete i l).
    { apply (Permutation_cons_inv (a:=y)).
      transitivity (<[i:=y]> l).
      - symmetry. apply delete_Permutation. exact Hj1.
      - apply insert_Permutation with x. exact Hi. }
    transitivity (x :: delete j (<[i:=y]> l)).
    + apply insert_Permutation with y. exact Hj1.
    + transitivity (x :: delete i l).
      * apply Permutation_cons; [reflexivity | exact Htail].
      * symmetry. apply delete_Permutation. exact Hi.
Qed.

Lemma index_Ok l (k : Z) a :
  index l k = Ok a <-> 0 <= k /\ l !! Z.to_nat k = Some a.
Proof.
  unfold index. destruct (Z.ltb_spec k 0) as [Hk|Hk].
  - split; [discriminate | lia].
  - destruct (l !! Z.to_nat k) as [b|]; split.
    + intros [= ->]. split; [lia | reflexivity].
    + intros [_ [= ->]]. reflexivity.
    + discriminate.
    + intros [_ ?]. discriminate.
Qed.

Lemma store_Ok l (k : Z) a :
  0 <= k < Z.of_nat (length l) ->
  store l k a = Ok (<[Z.to_nat k := a]> l).
Proof.
  intros Hk. unfold store.
  destruct (Z.leb_spec 0 k), (Z.ltb_spec k (Z.of_nat (length l)));
    simpl; try reflexivity; lia.
Qed.

Lemma reslice_Ok l (h : Z) :
  0 <= h <= Z.of_nat (length l) ->
  reslice l h = Ok (take (Z.to_nat h) l).
Proof.
  intros Hh. unfold reslice.
  destruct (Z.leb_spec 0 h), (Z.leb_spec h (Z.of_nat (length l)));
    simpl; try reflexivity; lia.
Qed.

End Slices.

Ltac dlia := Z.to_euclidean_division_equations; lia.

(** Decide the index tests [a =? b] of the goal by arithmetic. *)
Ltac eqb_decide :=
  repeat match goal with
  | |- context [?a =? ?b] =>
      first [ rewrite (proj2 (Z.eqb_eq a b)) by dlia
            | rewrite (proj2 (Z.eqb_neq a b)) by dlia ]
  end.

(** ** The ordering *)

Lemma comparator_of_false ty (a b : Z) :
  comparator_of ty a b = false <-> dominates ty a b.
Proof.
  destruct ty; unfold comparator_of, max, min, dominates; simpl.
  - rewrite Z.ltb_ge. reflexivity.
  - rewrite Z.gtb_ltb, Z.ltb_ge. reflexivity.
Qed.

Lemma comparator_of_true ty (a b : Z) :
  comparator_of ty a b = true -> dominates ty b a /\ ~ dominates ty a b.
Proof.
  destruct ty; unfold comparator_of, max, min, dominates; simpl.
  - rewrite Z.ltb_lt. lia.
  - rewrite Z.gtb_ltb, Z.ltb_lt. lia.
Qed.

Lemma dominates_refl ty (a : Z) : dominates ty a a.
Proof. destruct ty; simpl; lia. Qed.

Lemma dominates_trans ty (a b c : Z) :
  dominates ty a b -> dominates ty b c -> dominates ty a c.
Proof. destruct ty; simpl; lia. Qed.

(** ** Entries, [less] and [exch] *)

Section Queue.
Context {T : Type} `{GoZero T}.
Implicit Types (pq : PQueue T) (it : item T) (ty : PQType).

Lemma entry_Some pq (k : Z) it :
  entry pq k = Some it <-> 0 <= k /\ items pq !! Z.to_nat k = Some (Some it).
Proof.
  unfold entry. destruct (Z.ltb_spec k 0) as [Hk|Hk].
  - split; [discriminate | lia].
  - destruct (items pq !! Z.to_nat k) as [[x|]|]; simpl; split;
      try discriminate; try (intros [_ ?]; discriminate).
    + intros [= ->]. split; [exact Hk | reflexivity].
    + intros [_ [= ->]]. reflexivity.
Qed.

Lemma live_entry pq (k : Z) :
  live pq -> 1 <= k <= elemsCount pq -> exists it, entry pq k = Some it.
Proof. intros Hl Hk. destruct (Hl k Hk) as [it Hit]. eauto. Qed.

Lemma entry_index pq (k : Z) it :
  entry pq k = Some it -> index (items pq) k = Ok (Some it).
Proof. intros He. apply index_Ok, entry_Some, He. Qed.

Lemma entry_prio pq (k : Z) it : entry pq k = Some it -> prio pq k = priority it.
Proof. unfold prio. intros ->. reflexivity. Qed.

Lemma entry_in_range pq (k : Z) it :
  entry pq k = Some it -> 0 <= k < Z.of_nat (length (items pq)).
Proof.
  intros He. apply entry_Some in He as [Hk Hl].
  apply lookup_lt_Some in Hl. lia.
Qed.

Lemma less_ok ty pq (i j : Z) :
  wf ty pq -> 1 <= i <= elemsCount pq -> 1 <= j <= elemsCount pq ->
  less pq i j = Ok (comparator_of ty (prio pq i) (prio pq j)).
Proof.
  intros (_ & Hl & Hc) Hi Hj.
  destruct (live_entry pq i Hl Hi) as [a Ha].
  destruct (live_entry pq j Hl Hj) as [b Hb].
  unfold less. rewrite (entry_index _ _ _ Ha), (entry_index _ _ _ Hb).
  simpl. rewrite Hc, (entry_prio _ _ _ Ha), (entry_prio _ _ _ Hb).
  reflexivity.
Qed.

(** What [exch] does to a well-formed queue. *)
Lemma exch_ok ty pq (i j : Z) :
  wf ty pq -> 1 <= i <= elemsCount pq -> 1 <= j <= elemsCount pq ->
  exists pq',
    exch pq i j = Ok pq' /\ wf ty pq' /\
    elemsCount pq' = elemsCount pq /\
    length (items pq') = length (items pq) /\
    items pq' ≡ₚ items pq /\
    (forall x, entry pq' x =
               if x =? j then entry pq i
               else if x =? i then entry pq j else entry pq x).
Proof.
  intros (Hrep & Hl & Hc) Hi Hj.
  destruct (live_entry pq i Hl Hi) as [a Ha].
  destruct (live_entry pq j Hl Hj) as [b Hb].
  assert (Hri := entry_in_range _ _ _ Ha).
  assert (Hrj := entry_in_range _ _ _ Hb).
  unfold exch.
  rewrite (entry_index _ _ _ Ha), (entry_index _ _ _ Hb). simpl.
  rewrite store_Ok by exact Hri. simpl.
  rewrite store_Ok by (rewrite length_insert; exact Hrj). simpl.
  eexists. split; [reflexivity|].
  apply entry_Some in Ha as [_ Ha]. apply entry_Some in Hb as [_ Hb].
  assert (Hent : forall x,
    entry {| items := <[Z.to_nat j:=Some a]>
                        (<[Z.to_nat i:=Some b]> (items pq));
             elemsCount := elemsCount pq; comparator := comparator pq |} x =
    if x =? j then entry pq i
    else if x =? i then entry pq j else entry pq x).
  { intros x. unfold entry at 1. simpl.
    destruct (Z.ltb_spec x 0) as [Hx|Hx].
    - destruct (Z.eqb_spec x j); [lia|]. destruct (Z.eqb_spec x i); [lia|].
      unfold entry. destruct (Z.ltb_spec x 0); [reflexivity | lia].
    - rewrite !list_lookup_insert, !length_insert.
      destruct (Z.eqb_spec x j) as [->|Hxj].
      + rewrite decide_True by (split; [reflexivity | lia]). simpl.
        symmetry. apply entry_Some. split; [lia | exact Ha].
      + rewrite decide_False by lia.
        destruct (Z.eqb_spec x i) as [->|Hxi].
        * rewrite decide_True by (split; [reflexivity | lia]). simpl.
          symmetry. apply entry_Some. split; [lia | exact Hb].
        * rewrite decide_False by lia.
          unfold entry. destruct (Z.ltb_spec x 0); [lia | reflexivity]. }
  split; [|split; [reflexivity|split; [|split; [|exact Hent]]]].
  - split; [|split].
    + destruct Hrep as [Hn H0]. split; simpl.
      * rewrite !length_insert. exact Hn.
      * rewrite !list_lookup_insert_ne by lia. exact H0.
    + intros k Hk. simpl in Hk. rewrite Hent.
      destruct (k =? j); [eauto|]. destruct (k =? i); [eauto|].
      apply Hl, Hk.
    + exact Hc.
  - simpl. rewrite !length_insert. reflexivity.
  - simpl. apply swap_Permutation; assumption.
Qed.

Lemma prio_exch pq pq' (i j : Z) :
  (forall x, entry pq' x =
             if x =? j then entry pq i
             else if x =? i then entry pq j else entry pq x) ->
  forall x, prio pq' x =
            if x =? j then prio pq i
            else if x =? i then prio pq j else prio pq x.
Proof.
  intros He x. unfold prio. rewrite He.
  destruct (x =? j); [reflexivity|]. destruct (x =? i); reflexivity.
Qed.

(** ** [swim] *)

(** One exchange of [swim] moves the possible disorder one level up. *)
Lemma swim_step ty pq pq' (k : Z) :
  swim_pre ty pq k ->
  1 < k <= elemsCount pq ->
  comparator_of ty (prio pq (k / 2)) (prio pq k) = true ->
  elemsCount pq' = elemsCount pq ->
  (forall x, prio pq' x =
             if x =? k then prio pq (k / 2)
             else if x =? k / 2 then prio pq k else prio pq x) ->
  swim_pre ty pq' (k / 2).
Proof.
  intros [H1 H2] Hk Hc Hn Hp. apply comparator_of_true in Hc as [Hc _].
  split; intros j Hj; rewrite Hn in Hj; unfold ord; rewrite !Hp.
  - intros Hne. destruct (Z.eq_dec j k) as [->|Hjk].
    { eqb_decide. exact Hc. }
    destruct (Z.eq_dec (j / 2) k) as [e|Hj2k].
    { rewrite e. eqb_decide. apply H2; [exact Hj | exact e | lia]. }
    destruct (Z.eq_dec (j / 2) (k / 2)) as [e|Hj2].
    { rewrite e. eqb_decide.
      apply dominates_trans with (prio pq (k / 2)); [exact Hc|].
      rewrite <- e. apply H1; [exact Hj | exact Hjk]. }
    eqb_decide. apply H1; [exact Hj | exact Hjk].
  - intros Hj2 Hk2. eqb_decide.
    assert (Hup : dominates ty (prio pq (k / 2 / 2)) (prio pq (k / 2))).
    { apply H1; dlia. }
    destruct (Z.eq_dec j k) as [->|Hjk].
    { eqb_decide. exact Hup. }
    eqb_decide. apply dominates_trans with (prio pq (k / 2)); [exact Hup|].
    rewrite <- Hj2. apply H1; [exact Hj | exact Hjk].
Qed.

Lemma swim_loop_ok ty : forall (fuel : nat) pq (k : Z),
  wf ty pq ->
  1 <= k <= elemsCount pq ->
  (Z.to_nat k < fuel)%nat ->
  swim_pre ty pq k ->
  exists pq',
    swim_loop fuel pq k = Ok pq' /\ wf ty pq' /\ all_ord ty pq' /\
    elemsCount pq' = elemsCount pq /\ items pq' ≡ₚ items pq.
Proof.
  induction fuel as [|fuel IH]; intros pq k Hwf Hk Hfuel Hpre; [lia|].
  simpl. destruct (Z.ltb_spec 1 k) as [Hk1|Hk1].
  - assert (Hq : k ÷ 2 = k / 2) by dlia. rewrite Hq.
    rewrite (less_ok ty) by (try exact Hwf; dlia). simpl.
    destruct (comparator_of ty (prio pq (k / 2)) (prio pq k)) eqn:Hc.
    + destruct (exch_ok ty pq (k / 2) k Hwf) as
        (pq1 & -> & Hwf1 & Hn1 & _ & Hperm1 & Hent1); [dlia | lia |].
      simpl.
      destruct (IH pq1 (k / 2)) as (pq2 & Hrun & Hwf2 & Hord2 & Hn2 & Hperm2).
      * exact Hwf1.
      * rewrite Hn1. dlia.
      * dlia.
      * apply swim_step with pq; try assumption; [lia|].
        apply prio_exch, Hent1.
      * exists pq2. rewrite Hrun.
        split; [reflexivity|]. split; [exact Hwf2|]. split; [exact Hord2|].
        split; [congruence|]. etransitivity; eassumption.
    + exists pq.
      split; [reflexivity|]. split; [exact Hwf|].
      split; [|split; reflexivity].
      intros j Hj. destruct (Z.eq_dec j k) as [->|Hjk].
      * apply comparator_of_false, Hc.
      * apply Hpre; assumption.
  - exists pq.
    split; [reflexivity|]. split; [exact Hwf|].
    split; [|split; reflexivity].
    intros j Hj. apply Hpre; [exact Hj | lia].
Qed.

Lemma wf_count_nonneg ty pq : wf ty pq -> 0 <= elemsCount pq.
Proof.
  intros ([Hn H0] & _). apply lookup_lt_Some in H0. lia.
Qed.

Lemma wf_length ty pq :
  wf ty pq -> Z.of_nat (length (items pq)) = elemsCount pq + 1.
Proof. intros ([Hn _] & _). lia. Qed.

(** Entries that an operation leaves in place keep their priority. *)
Lemma prio_entry_eq pq pq' (k : Z) :
  entry pq' k = entry pq k -> prio pq' k = prio pq k.
Proof. unfold prio. intros ->. reflexivity. Qed.

Lemma Push_ok ty pq (v : T) (p : Z) :
  wf ty pq -> all_ord ty pq ->
  exists pq',
    Push pq v p = Ok pq' /\ wf ty pq' /\ all_ord ty pq' /\
    elemsCount pq' = elemsCount pq + 1 /\
    items pq' ≡ₚ items pq ++ [Some (newItem v p)].
Proof.
  intros Hwf Hord. unfold Push.
  set (pq1 := {| items := items pq ++ [Some (newItem v p)];
                 elemsCount := elemsCount pq + 1;
                 comparator := comparator pq |}).
  assert (Hn := wf_count_nonneg _ _ Hwf).
  assert (Hlen := wf_length _ _ Hwf).
  assert (Hold : forall k, 0 <= k <= elemsCount pq ->
                           entry pq1 k = entry pq k).
  { intros k Hk. unfold entry. simpl.
    rewrite lookup_app_l by lia. reflexivity. }
  assert (Hnew : entry pq1 (elemsCount pq + 1) = Some (newItem v p)).
  { apply entry_Some. split; [lia|]. simpl.
    rewrite lookup_app_r by lia.
    replace (Z.to_nat (elemsCount pq + 1) - length (items pq))%nat
      with 0%nat by lia.
    reflexivity. }
  assert (Hwf1 : wf ty pq1).
  { destruct Hwf as ([Hc H0] & Hl & Hcmp). split; [|split].
    - split; simpl.
      + rewrite length_app. simpl. lia.
      + rewrite lookup_app_l by lia. exact H0.
    - intros k Hk. simpl in Hk.
      destruct (Z.eq_dec k (elemsCount pq + 1)) as [->|Hne].
      + rewrite Hnew. eauto.
      + rewrite Hold by lia. apply Hl. lia.
    - exact Hcmp. }
  assert (Hpre : swim_pre ty pq1 (size pq1)).
  { unfold size. split; simpl; intros j Hj.
    - intros Hne. unfold ord.
      rewrite !(prio_entry_eq pq pq1) by (apply Hold; dlia).
      apply Hord. lia.
    - intros Hj2. exfalso. dlia. }
  destruct (swim_loop_ok ty (S (Z.to_nat (size pq1))) pq1 (size pq1))
    as (pq' & Hrun & Hwf' & Hord' & Hn' & Hperm); try assumption.
  - unfold size. simpl. lia.
  - lia.
  - exists pq'. unfold swim. rewrite Hrun.
    split; [reflexivity|]. split; [exact Hwf'|]. split; [exact Hord'|].
    split; [exact Hn' | exact Hperm].
Qed.

(** ** [sink] *)

Lemma favoured_child ty pq (k : Z) :
  wf ty pq -> 1 <= k -> 2 * k <= elemsCount pq ->
  exists c,
    (if 2 * k <? size pq then less pq (2 * k) (2 * k + 1) else Ok false)
      = Ok c /\
    favoured ty pq k (if c then 2 * k + 1 else 2 * k).
Proof.
  intros Hwf Hk Hkn. unfold size.
  destruct (Z.ltb_spec (2 * k) (elemsCount pq)) as [Hlt|Hge].
  - rewrite (less_ok ty) by (try exact Hwf; lia).
    eexists. split; [reflexivity|].
    destruct (comparator_of ty (prio pq (2 * k)) (prio pq (2 * k + 1)))
      eqn:Hc.
    + apply comparator_of_true in Hc as [Hc _].
      split; [dlia|]. split; [lia|]. intros x Hx Hx2.
      assert (Hcase : x = 2 * k \/ x = 2 * k + 1) by dlia.
      destruct Hcase as [->| ->]; [exact Hc | apply dominates_refl].
    + apply comparator_of_false in Hc.
      split; [dlia|]. split; [lia|]. intros x Hx Hx2.
      assert (Hcase : x = 2 * k \/ x = 2 * k + 1) by dlia.
      destruct Hcase as [->| ->]; [apply dominates_refl | exact Hc].
  - exists false. split; [reflexivity|].
    split; [dlia|]. split; [lia|]. intros x Hx Hx2.
    assert (x = 2 * k) as -> by dlia. apply dominates_refl.
Qed.

(** One exchange of [sink] moves the possible disorder one level down. *)
Lemma sink_step ty pq pq' (k j : Z) :
  sink_pre ty pq k ->
  1 <= k ->
  favoured ty pq k j ->
  comparator_of ty (prio pq k) (prio pq j) = true ->
  elemsCount pq' = elemsCount pq ->
  (forall x, prio pq' x =
             if x =? j then prio pq k
             else if x =? k then prio pq j else prio pq x) ->
  sink_pre ty pq' j.
Proof.
  intros [H1 H2] Hk (Hjk & Hj & Hfav) Hc Hn Hp.
  apply comparator_of_true in Hc as [Hc _].
  split; intros x Hx; rewrite Hn in Hx; unfold ord; rewrite !Hp.
  - intros Hxj. destruct (Z.eq_dec (x / 2) k) as [e|Hx2].
    + rewrite e. destruct (Z.eq_dec x j) as [->|Hne].
      * eqb_decide. exact Hc.
      * eqb_decide. apply Hfav; assumption.
    + destruct (Z.eq_dec x k) as [->|Hxk].
      * eqb_decide. apply H2; [exact Hj | exact Hjk | lia].
      * eqb_decide. apply H1; assumption.
  - intros Hx2 Hj1. rewrite Hjk. eqb_decide.
    rewrite <- Hx2 at 1. apply H1; [exact Hx | dlia].
Qed.

Lemma sink_stop ty pq (k j : Z) :
  sink_pre ty pq k ->
  favoured ty pq k j ->
  comparator_of ty (prio pq k) (prio pq j) = false ->
  all_ord ty pq.
Proof.
  intros [H1 H2] (Hjk & Hj & Hfav) Hc x Hx.
  apply comparator_of_false in Hc.
  destruct (Z.eq_dec (x / 2) k) as [e|Hne].
  - unfold ord. rewrite e.
    apply dominates_trans with (prio pq j); [exact Hc|].
    apply Hfav; assumption.
  - apply H1; assumption.
Qed.

Lemma sink_loop_ok ty : forall (fuel : nat) pq (k : Z),
  wf ty pq ->
  1 <= k ->
  (Z.to_nat (elemsCount pq - k) < fuel)%nat ->
  sink_pre ty pq k ->
  exists pq',
    sink_loop fuel pq k = Ok pq' /\ wf ty pq' /\ all_ord ty pq' /\
    elemsCount pq' = elemsCount pq /\ items pq' ≡ₚ items pq.
Proof.
  induction fuel as [|fuel IH]; intros pq k Hwf Hk Hfuel Hpre; [lia|].
  simpl. unfold size at 1.
  destruct (Z.leb_spec (2 * k) (elemsCount pq)) as [Hin|Hout].
  - destruct (favoured_child ty pq k Hwf Hk Hin) as (c & -> & Hfav).
    simpl. set (j := if c then 2 * k + 1 else 2 * k) in *.
    assert (Hj := Hfav). destruct Hj as (Hjk & Hj & _).
    rewrite (less_ok ty) by (try exact Hwf; dlia). simpl.
    destruct (comparator_of ty (prio pq k) (prio pq j)) eqn:Hc; simpl.
    + destruct (exch_ok ty pq k j Hwf) as
        (pq1 & -> & Hwf1 & Hn1 & _ & Hperm1 & Hent1); [dlia | lia |].
      simpl.
      destruct (IH pq1 j) as (pq2 & Hrun & Hwf2 & Hord2 & Hn2 & Hperm2).
      * exact Hwf1.
      * lia.
      * rewrite Hn1. dlia.
      * apply sink_step with pq k; try assumption.
        apply prio_exch, Hent1.
      * exists pq2. rewrite Hrun.
        split; [reflexivity|]. split; [exact Hwf2|]. split; [exact Hord2|].
        split; [congruence|]. etransitivity; eassumption.
    + exists pq.
      split; [reflexivity|]. split; [exact Hwf|].
      split; [|split; reflexivity].
      apply sink_stop with k j; assumption.
  - exists pq.
    split; [reflexivity|]. split; [exact Hwf|].
    split; [|split; reflexivity].
    intros x Hx. apply Hpre; [exact Hx | dlia].
Qed.

(** ** [Pop] and [Head] *)

Lemma heap_Pop_empty pq :
  size pq < 1 -> Pop pq = Ok ((zero_value, 0), pq).
Proof.
  intros Hs. unfold Pop.
  destruct (Z.ltb_spec (size pq) 1); [reflexivity | lia].
Qed.

Lemma heap_Head_empty pq : size pq < 1 -> Head pq = Ok (zero_value, 0).
Proof.
  intros Hs. unfold Head.
  destruct (Z.ltb_spec (size pq) 1); [reflexivity | lia].
Qed.

Lemma Head_ok ty pq :
  wf ty pq -> 1 <= elemsCount pq ->
  exists m, entry pq 1 = Some m /\ Head pq = Ok (value m, priority m).
Proof.
  intros Hwf Hn. destruct Hwf as (_ & Hl & _).
  destruct (live_entry pq 1 Hl) as [m Hm]; [lia|].
  exists m. split; [exact Hm|]. unfold Head, size.
  destruct (Z.ltb_spec (elemsCount pq) 1); [lia|].
  rewrite (entry_index _ _ _ Hm). reflexivity.
Qed.

Lemma Pop_ok ty pq :
  wf ty pq -> all_ord ty pq -> 1 <= elemsCount pq ->
  exists m pq',
    entry pq 1 = Some m /\
    Pop pq = Ok ((value m, priority m), pq') /\
    wf ty pq' /\ all_ord ty pq' /\
    elemsCount pq' = elemsCount pq - 1 /\
    items pq ≡ₚ items pq' ++ [Some m].
Proof.
  intros Hwf Hord Hn.
  assert (Hl : live pq) by apply Hwf.
  destruct (live_entry pq 1 Hl) as [m Hm]; [lia|].
  exists m. unfold Pop, size.
  destruct (Z.ltb_spec (elemsCount pq) 1); [lia|].
  rewrite (entry_index _ _ _ Hm). simpl.
  destruct (exch_ok ty pq 1 (elemsCount pq) Hwf) as
    (pq1 & -> & Hwf1 & Hn1 & Hlen1 & Hperm1 & Hent1); [lia | lia |].
  simpl.
  assert (Hlen := wf_length _ _ Hwf1).
  rewrite reslice_Ok by lia. simpl.
  set (pq2 := {| items := take (Z.to_nat (elemsCount pq1)) (items pq1);
                 elemsCount := elemsCount pq1 - 1;
                 comparator := comparator pq1 |}).
  assert (Hlast : entry pq1 (elemsCount pq) = Some m).
  { rewrite Hent1. eqb_decide. exact Hm. }
  assert (Hsplit : items pq1 = items pq2 ++ [Some m]).
  { simpl. apply entry_Some in Hlast as [_ Hlast]. rewrite <- Hn1 in Hlast.
    rewrite <- (take_S_r _ _ _ Hlast).
    symmetry. apply take_ge. lia. }
  assert (Hkeep : forall x, x < elemsCount pq1 -> entry pq2 x = entry pq1 x).
  { intros x Hx. unfold entry. simpl.
    destruct (Z.ltb_spec x 0); [reflexivity|].
    rewrite lookup_take_lt by lia. reflexivity. }
  assert (Hwf2 : wf ty pq2).
  { destruct Hwf1 as ([Hc1 H01] & Hl1 & Hcmp1). split; [|split].
    - split; simpl.
      + rewrite length_take_le by lia. lia.
      + rewrite lookup_take_lt by lia. exact H01.
    - intros k Hk. simpl in Hk. rewrite Hkeep by lia. apply Hl1. lia.
    - exact Hcmp1. }
  assert (Hpre : sink_pre ty pq2 1).
  { split; simpl; intros x Hx; [|lia].
    intros Hx2. unfold ord.
    rewrite !(prio_entry_eq pq1 pq2) by (apply Hkeep; dlia).
    rewrite !(prio_exch pq pq1 _ _ Hent1). eqb_decide.
    apply Hord. lia. }
  destruct (sink_loop_ok ty (S (Z.to_nat (size pq2))) pq2 1)
    as (pq3 & Hrun & Hwf3 & Hord3 & Hn3 & Hperm3); try assumption.
  - lia.
  - unfold size. simpl. lia.
  - exists pq3. unfold sink. rewrite Hrun. simpl.
    split; [exact Hm|]. split; [reflexivity|].
    split; [exact Hwf3|]. split; [exact Hord3|].
    split; [rewrite Hn3; simpl; lia|].
    rewrite <- Hperm1, Hsplit. apply Permutation_app_tail.
    symmetry. exact Hperm3.
Qed.

(** ** The root of an ordered heap *)

Lemma root_dominates ty pq :
  all_ord ty pq ->
  forall k, 1 <= k <= elemsCount pq ->
            dominates ty (prio pq 1) (prio pq k).
Proof.
  intros Hord k.
  assert (Hgen : forall (n : nat) k, (Z.to_nat k <= n)%nat ->
            1 <= k <= elemsCount pq -> dominates ty (prio pq 1) (prio pq k)).
  { induction n as [|n IH]; intros j Hjn Hj; [lia|].
    destruct (Z.eq_dec j 1) as [->|Hne]; [apply dominates_refl|].
    apply dominates_trans with (prio pq (j / 2)).
    - apply IH; dlia.
    - apply Hord. lia. }
  apply (Hgen (Z.to_nat k)). lia.
Qed.

(** A stored pair sits at a live index. *)
Lemma stored_entry ty pq (x : T * Z) :
  wf ty pq -> x ∈ stored pq ->
  exists k it, 1 <= k <= elemsCount pq /\ entry pq k = Some it /\
               x = pair_of it.
Proof.
  intros Hwf Hx. unfold stored in Hx.
  apply list_elem_of_fmap in Hx as (it & -> & Hit).
  apply list_elem_of_omap in Hit as (o & Ho & Hsome). simpl in Hsome.
  subst o. apply list_elem_of_lookup in Ho as [i Hi].
  assert (Hlen := wf_length _ _ Hwf).
  assert (Hlt := lookup_lt_Some _ _ _ Hi).
  destruct Hwf as ([_ H0] & _).
  assert (i <> 0%nat) by (intros ->; congruence).
  exists (Z.of_nat i), it. split; [lia|]. split; [|reflexivity].
  apply entry_Some. split; [lia|]. rewrite Nat2Z.id. exact Hi.
Qed.

Lemma entry_stored pq (k : Z) it :
  entry pq k = Some it -> pair_of it ∈ stored pq.
Proof.
  intros He. apply entry_Some in He as [_ He]. unfold stored.
  apply list_elem_of_fmap_2, list_elem_of_omap.
  exists (Some it). split; [|reflexivity].
  apply list_elem_of_lookup. eauto.
Qed.

Lemma head_dominates_stored ty pq m :
  wf ty pq -> all_ord ty pq -> entry pq 1 = Some m ->
  forall v p, (v, p) ∈ stored pq -> dominates ty (priority m) p.
Proof.
  intros Hwf Hord Hm v p Hx.
  destruct (stored_entry ty pq _ Hwf Hx) as (k & it & Hk & Hit & Heq).
  inversion Heq; subst.
  rewrite <- (entry_prio _ _ _ Hm), <- (entry_prio _ _ _ Hit).
  apply root_dominates; assumption.
Qed.

Lemma stored_Permutation pq pq' (l : list (option (item T))) :
  items pq ≡ₚ items pq' ++ l ->
  stored pq ≡ₚ stored pq' ++ (pair_of <$> omap id l).
Proof.
  intros Hp. unfold stored. rewrite Hp, omap_app, fmap_app. reflexivity.
Qed.

(** ** Sequences of calls *)

Lemma NewPQueue_wf ty :
  wf ty (NewPQueue (T:=T) ty) /\ all_ord ty (NewPQueue (T:=T) ty).
Proof.
  split.
  - split; [|split].
    + split; reflexivity.
    + intros k Hk. simpl in Hk. lia.
    + destruct ty; reflexivity.
  - intros j Hj. simpl in Hj. lia.
Qed.

Lemma heap_ordered_of_all_ord ty pq :
  wf ty pq -> all_ord ty pq -> heap_ordered ty pq.
Proof.
  intros Hwf Hord k Hk. destruct Hwf as (_ & Hl & _).
  destruct (live_entry pq (k / 2) Hl) as [p Hp]; [dlia|].
  destruct (live_entry pq k Hl) as [c Hc]; [lia|].
  exists p, c. split; [exact Hp|]. split; [exact Hc|].
  rewrite <- (entry_prio _ _ _ Hp), <- (entry_prio _ _ _ Hc).
  apply Hord, Hk.
Qed.

Lemma run_ok ty : forall (ops : list op) pq,
  wf ty pq -> all_ord ty pq ->
  exists pq', run pq ops = Ok pq' /\ wf ty pq' /\ all_ord ty pq'.
Proof.
  induction ops as [|o ops IH]; intros pq Hwf Hord.
  - exists pq. split; [reflexivity|]. split; assumption.
  - destruct o as [v p|]; simpl.
    + destruct (Push_ok ty pq v p Hwf Hord) as (pq1 & -> & Hwf1 & Hord1 & _).
      simpl. apply IH; assumption.
    + destruct (Z_lt_le_dec (elemsCount pq) 1) as [Hempty|Hne].
      * rewrite heap_Pop_empty by exact Hempty. simpl. apply IH; assumption.
      * destruct (Pop_ok ty pq Hwf Hord Hne)
          as (m & pq1 & _ & -> & Hwf1 & Hord1 & _).
        simpl. apply IH; assumption.
Qed.

Lemma pushes_ok ty : forall (l : list (T * Z)) pq,
  wf ty pq -> all_ord ty pq ->
  exists pq',
    pushes pq l = Ok pq' /\ wf ty pq' /\ all_ord ty pq' /\
    elemsCount pq' = elemsCount pq + Z.of_nat (length l) /\
    stored pq' ≡ₚ stored pq ++ l.
Proof.
  induction l as [|[v p] l IH]; intros pq Hwf Hord.
  - exists pq. split; [reflexivity|]. split; [exact Hwf|].
    split; [exact Hord|]. split; [simpl; lia|].
    rewrite app_nil_r. reflexivity.
  - simpl pushes.
    destruct (Push_ok ty pq v p Hwf Hord)
      as (pq1 & -> & Hwf1 & Hord1 & Hn1 & Hperm1).
    simpl bind.
    destruct (IH pq1 Hwf1 Hord1) as (pq2 & Hrun & Hwf2 & Hord2 & Hn2 & Hperm2).
    exists pq2. split; [exact Hrun|]. split; [exact Hwf2|].
    split; [exact Hord2|]. split; [simpl length; lia|].
    rewrite Hperm2. apply stored_Permutation in Hperm1.
    rewrite Hperm1. simpl. rewrite <- app_assoc. reflexivity.
Qed.

Lemma pops_ok ty : forall (n : nat) pq,
  wf ty pq -> all_ord ty pq -> Z.of_nat n <= elemsCount pq ->
  exists rs pq',
    pops n pq = Ok (rs, pq') /\ wf ty pq' /\ all_ord ty pq' /\
    elemsCount pq' = elemsCount pq - Z.of_nat n /\
    stored pq ≡ₚ rs ++ stored pq' /\
    StronglySorted (dominates ty) (snd <$> rs).
Proof.
  induction n as [|n IH]; intros pq Hwf Hord Hn.
  - exists [], pq. split; [reflexivity|]. split; [exact Hwf|].
    split; [exact Hord|]. split; [lia|]. split; [reflexivity|].
    constructor.
  - simpl pops.
    destruct (Pop_ok ty pq Hwf Hord)
      as (m & pq1 & Hm & -> & Hwf1 & Hord1 & Hn1 & Hperm1); [lia|].
    simpl bind.
    destruct (IH pq1 Hwf1 Hord1)
      as (rs & pq2 & -> & Hwf2 & Hord2 & Hn2 & Hperm2 & Hsorted); [lia|].
    simpl.
    apply stored_Permutation in Hperm1. simpl in Hperm1.
    exists (pair_of m :: rs), pq2.
    split; [reflexivity|]. split; [exact Hwf2|]. split; [exact Hord2|].
    split; [lia|]. split.
    + rewrite Hperm1, Hperm2. simpl.
      rewrite <- Permutation_cons_append. reflexivity.
    + simpl. constructor; [exact Hsorted|].
      apply Forall_forall. intros p Hp.
      apply list_elem_of_fmap in Hp as ([v p'] & -> & Hin).
      apply (head_dominates_stored ty pq m Hwf Hord Hm v p').
      rewrite Hperm1, Hperm2.
      apply elem_of_app. left. apply elem_of_app. left. exact Hin.
Qed.

Lemma wf_empty_stored ty pq : wf ty pq -> elemsCount pq = 0 -> stored pq = [].
Proof.
  intros ([Hn H0] & _) Hz. unfold stored.
  destruct (items pq) as [|x [|y l]]; simpl in *; try lia.
  inversion H0; subst. reflexivity.
Qed.

(** ** The claims on the priority queue *)

(** C1. Whatever sequence of [Push] and [Pop] calls is made on a queue of
    either ordering, every call returns, and after each of them (after the
    first [n] calls, for every [n]) the heap array satisfies the dominance
    invariant: for every live index [k > 1] the entry at [k/2] dominates the
    entry at [k], that is its priority is at least that of the child on a
    MAXPQ queue and at most that of the child on a MINPQ queue. *)
Theorem C1_heap_order_after_every_call ty (ops : list (@op T)) (n : nat) :
  exists pq, run (NewPQueue ty) (take n ops) = Ok pq /\ heap_ordered ty pq.
Proof.
  destruct (NewPQueue_wf ty) as [Hwf Hord].
  destruct (run_ok ty (take n ops) _ Hwf Hord) as (pq & Hrun & Hwf' & Hord').
  exists pq. split; [exact Hrun|].
  apply heap_ordered_of_all_ord; assumption.
Qed.

(** C9. Whatever sequence of [Push] and [Pop] calls is made on a new
    queue, after each of them the element count is the length of the heap
    array minus one and index 0 of the heap array holds nil. *)
Theorem C9_representation_invariant ty (ops : list (@op T)) (n : nat) :
  exists pq,
    run (NewPQueue ty) (take n ops) = Ok pq /\
    elemsCount pq = Z.of_nat (length (items pq)) - 1 /\
    items pq !! 0%nat = Some None.
Proof.
  destruct (NewPQueue_wf ty) as [Hwf Hord].
  destruct (run_ok ty (take n ops) _ Hwf Hord) as (pq & Hrun & Hwf' & _).
  exists pq. split; [exact Hrun|]. apply Hwf'.
Qed.

(** C2. After any sequence [l] of at least one [Push] call on a new
    queue, the stored pairs are the pairs of [l], and [Head] returns one of
    them whose priority dominates the priority of every stored pair: it is
    the maximum on a MAXPQ queue and the minimum on a MINPQ queue. *)
Theorem C2_head_is_extremum ty (l : list (T * Z)) :
  l <> [] ->
  exists pq v p,
    pushes (NewPQueue ty) l = Ok pq /\
    stored pq ≡ₚ l /\
    Head pq = Ok (v, p) /\
    (v, p) ∈ stored pq /\
    forall v' p', (v', p') ∈ stored pq ->
      match ty with
      | MAXPQ => p' <= p
      | MINPQ => p <= p'
      end.
Proof.
  intros Hne. destruct (NewPQueue_wf ty) as [Hwf Hord].
  destruct (pushes_ok ty l _ Hwf Hord)
    as (pq & Hrun & Hwf' & Hord' & Hn & Hperm).
  simpl in Hn, Hperm.
  destruct (Head_ok ty pq Hwf') as (m & Hm & Hhead).
  { destruct l; [contradiction|]. simpl in Hn. lia. }
  exists pq, (value m), (priority m).
  split; [exact Hrun|]. split; [exact Hperm|]. split; [exact Hhead|].
  split.
  - apply (entry_stored pq 1 m Hm).
  - intros v' p' Hin.
    assert (Hd := head_dominates_stored ty pq m Hwf' Hord' Hm v' p' Hin).
    destruct ty; exact Hd.
Qed.

(** C3. After the [n] [Push] calls of any sequence [l] on a new queue, [n]
    successive [Pop] calls return the pairs of [l] in an order in which the
    priorities never increase on a MAXPQ queue and never decrease on a
    MINPQ queue. *)
Theorem C3_pops_come_out_sorted ty (l : list (T * Z)) :
  exists pq rs pq',
    pushes (NewPQueue ty) l = Ok pq /\
    pops (length l) pq = Ok (rs, pq') /\
    rs ≡ₚ l /\
    Sorted (fun a b => match ty with
                       | MAXPQ => b <= a
                       | MINPQ => a <= b
                       end) (snd <$> rs).
Proof.
  destruct (NewPQueue_wf ty) as [Hwf Hord].
  destruct (pushes_ok ty l _ Hwf Hord)
    as (pq & Hrun & Hwf1 & Hord1 & Hn1 & Hperm1).
  simpl in Hn1, Hperm1.
  destruct (pops_ok ty (length l) pq Hwf1 Hord1)
    as (rs & pq' & Hpops & Hwf2 & _ & Hn2 & Hperm2 & Hsorted); [lia|].
  exists pq, rs, pq'. split; [exact Hrun|]. split; [exact Hpops|]. split.
  - rewrite <- Hperm1, Hperm2.
    rewrite (wf_empty_stored ty pq' Hwf2) by lia.
    rewrite app_nil_r. reflexivity.
  - apply StronglySorted_Sorted.
    destruct ty; exact Hsorted.
Qed.

End Queue.

(** Case analysis on a membership in an explicit list. *)
Ltac elem_cases H :=
  repeat (apply elem_of_cons in H as [->|H]);
  try (apply not_elem_of_nil in H; destruct H).

(** C8. On a new MINPQ queue of strings, after the four pushes
    ("abc",1), ("123",2), ("easy as",3), ("do re mi",4), made in any order,
    four successive [Pop] calls return ("abc",1), ("123",2), ("easy as",3),
    ("do re mi",4), in that order. *)
Theorem C8_song_scenario (l : list (string * Z)) :
  l ≡ₚ [("abc"%string, 1); ("123"%string, 2); ("easy as"%string, 3);
         ("do re mi"%string, 4)] ->
  exists pq pq',
    pushes (NewPQueue MINPQ) l = Ok pq /\
    pops 4 pq =
      Ok ([("abc"%string, 1); ("123"%string, 2); ("easy as"%string, 3);
           ("do re mi"%string, 4)], pq').
Proof.
  intros Hp.
  assert (Hlen := Permutation_length Hp).
  assert (Hnd : NoDup l).
  { rewrite Hp. apply (bool_decide_unpack _). vm_compute. exact I. }
  destruct l as [|a [|b [|c [|d [|e l]]]]]; try discriminate Hlen.
  assert (Ha : a ∈ [a; b; c; d]) by (left).
  assert (Hb : b ∈ [a; b; c; d]) by (right; left).
  assert (Hc : c ∈ [a; b; c; d]) by (right; right; left).
  assert (Hd : d ∈ [a; b; c; d]) by (right; right; right; left).
  rewrite Hp in Ha, Hb, Hc, Hd. clear Hp Hlen.
  elem_cases Ha; elem_cases Hb; elem_cases Hc; elem_cases Hd;
    first [ exfalso; apply (bool_decide_pack _) in Hnd;
            vm_compute in Hnd; exact Hnd
          | eexists; eexists; split; vm_compute; reflexivity ].
Qed.

Lemma C8_song_scenario_witness :
  exists pq pq',
    pushes (NewPQueue MINPQ)
      [("easy as"%string, 3); ("123"%string, 2); ("do re mi"%string, 4);
       ("abc"%string, 1)] = Ok pq /\
    pops 4 pq =
      Ok ([("abc"%string, 1); ("123"%string, 2); ("easy as"%string, 3);
           ("do re mi"%string, 4)], pq').
Proof.
  apply C8_song_scenario.
  apply (bool_decide_unpack _). vm_compute. exact I.
Defined.

Lemma C2_head_is_extremum_witness :
  exists pq v p,
    pushes (NewPQueue MAXPQ) [("a"%string, 2); ("b"%string, 5)] = Ok pq /\
    stored pq ≡ₚ [("a"%string, 2); ("b"%string, 5)] /\
    Head pq = Ok (v, p) /\
    (v, p) ∈ stored pq /\
    forall v' p', (v', p') ∈ stored pq -> p' <= p.
Proof.
  apply (C2_head_is_extremum MAXPQ [("a"%string, 2); ("b"%string, 5)]).
  discriminate.
Defined.

End PQueueFacts.

(** * Empty containers *)

Module ContainerFacts.

(** C5. On an empty container every removal and every peek returns,
    without a panic, the zero value ([Pop], [Shift], [First] and [Last] of
    a deque) or the zero value with priority 0 ([Pop] and [Head] of a
    priority queue), and the removals leave the container as it is. *)
Theorem C5_empty_container_sentinel {T : Type} `{GoZero T} `{GoBoxed T} :
  (forall s : Deque.Deque T,
     Deque.Empty s = true ->
     Deque.Pop s = (Deque.Returns zero_value, s) /\
     Deque.Shift s = (Deque.Returns zero_value, s) /\
     Deque.First s = Deque.Returns zero_value /\
     Deque.Last s = Deque.Returns zero_value) /\
  (forall pq : PQueue.PQueue T,
     PQueue.Empty pq = true ->
     PQueue.Pop pq = PQueue.Ok ((zero_value, 0), pq) /\
     PQueue.Head pq = PQueue.Ok (zero_value, 0)).
Proof.
  split.
  - intros s He.
    split; [apply DequeFacts.Pop_empty, He|].
    split; [apply DequeFacts.Shift_empty, He|].
    unfold Deque.Empty in He. apply Z.eqb_eq, DequeFacts.Len_zero_nil in He.
    unfold Deque.First, Deque.Last. rewrite He. split; reflexivity.
  - intros pq He. unfold PQueue.Empty in He. apply Z.eqb_eq in He.
    split.
    + apply PQueueFacts.heap_Pop_empty. lia.
    + apply PQueueFacts.heap_Head_empty. lia.
Qed.

Lemma C5_empty_container_sentinel_witness :
  (Deque.Pop (Deque.NewDeque (T:=Z)) =
     (Deque.Returns 0, Deque.NewDeque) /\
   Deque.Shift (Deque.NewDeque (T:=Z)) =
     (Deque.Returns 0, Deque.NewDeque) /\
   Deque.First (Deque.NewDeque (T:=Z)) = Deque.Returns 0 /\
   Deque.Last (Deque.NewDeque (T:=Z)) = Deque.Returns 0) /\
  (PQueue.Pop (PQueue.NewPQueue (T:=Z) PQueue.MAXPQ) =
     PQueue.Ok ((0, 0), PQueue.NewPQueue PQueue.MAXPQ) /\
   PQueue.Head (PQueue.NewPQueue (T:=Z) PQueue.MAXPQ) = PQueue.Ok (0, 0)).
Proof.
  split.
  - apply (proj1 (C5_empty_container_sentinel (T:=Z))). reflexivity.
  - apply (proj2 (C5_empty_container_sentinel (T:=Z))). reflexivity.
Defined.

End ContainerFacts.

(** * Further properties of the deque *)

Module DequeLaws.
Import Deque.

Section DequeLaws.
Context {T : Type} `{GoZero T} `{GoBoxed T}.

Implicit Types (s : Deque T) (item : T) (ops : list (@op T)).

Lemma assertT_value item : nil_boxed item = false -> assertT item = Returns item.
Proof. unfold assertT. intros ->. reflexivity. Qed.

Lemma assertT_nil item : nil_boxed item = true -> assertT item = Panics.
Proof. unfold assertT. intros ->. reflexivity. Qed.

Lemma Pop_snoc (c : Z) (l : list T) item :
  Pop {| container := l ++ [item]; capacity := c |} =
    (assertT item, {| container := l; capacity := c |}).
Proof.
  unfold Pop, GoList.Back, GoList.RemoveBack. simpl.
  rewrite last_snoc, removelast_last. reflexivity.
Qed.

Lemma Shift_cons (c : Z) (l : list T) item :
  Shift {| container := item :: l; capacity := c |} =
    (assertT item, {| container := l; capacity := c |}).
Proof. reflexivity. Qed.

Lemma calls_app ops1 : forall s ops2,
  calls s (ops1 ++ ops2) =
    (fst (calls s ops1) ++ fst (calls (snd (calls s ops1)) ops2),
     snd (calls (snd (calls s ops1)) ops2)).
Proof.
  induction ops1 as [|o ops1 IH]; intros s ops2; simpl.
  - destruct (calls s ops2); reflexivity.
  - destruct (call s o) as [r s1]. rewrite IH.
    destruct (calls s1 ops1) as [rs1 s2]. simpl.
    destruct (calls s2 ops2) as [rs2 s3]. reflexivity.
Qed.

Lemma calls_appends (xs : list T) : forall s,
  capacity s < 0 \/ Size s + Z.of_nat (length xs) <= capacity s ->
  calls s (OpAppend <$> xs) =
    ((fun _ => RetBool true) <$> xs,
     {| container := container s ++ xs; capacity := capacity s |}).
Proof.
  induction xs as [|x xs IH]; intros s Hroom; simpl.
  - rewrite app_nil_r. destruct s; reflexivity.
  - simpl length in Hroom.
    rewrite DequeFacts.Append_room by lia.
    rewrite IH; simpl.
    + rewrite <- app_assoc. reflexivity.
    + unfold Size in *. simpl.
      change (container s ++ [x]) with (GoList.PushBack (container s) x).
      rewrite DequeFacts.Len_PushBack. lia.
Qed.

Lemma calls_shifts (c : Z) (xs : list T) : forall rest,
  Forall (fun x => nil_boxed x = false) xs ->
  calls {| container := xs ++ rest; capacity := c |}
        (repeat OpShift (length xs)) =
    (RetItem <$> xs, {| container := rest; capacity := c |}).
Proof.
  induction xs as [|x xs IH]; intros rest Hxs; simpl; [reflexivity|].
  apply Forall_cons in Hxs as [Hx Hxs].
  unfold Shift. simpl. unfold GoList.RemoveFront. simpl.
  rewrite (assertT_value x Hx), (IH rest Hxs). reflexivity.
Qed.

Lemma calls_pops (c : Z) (rest xs : list T) :
  Forall (fun x => nil_boxed x = false) xs ->
  calls {| container := rest ++ xs; capacity := c |}
        (repeat OpPop (length xs)) =
    (RetItem <$> rev xs, {| container := rest; capacity := c |}).
Proof.
  induction xs as [|x xs IH] using rev_ind; intros Hxs; simpl.
  - rewrite app_nil_r. reflexivity.
  - apply Forall_app in Hxs as [Hxs Hx].
    apply Forall_cons in Hx as [Hx _].
    rewrite length_app, Nat.add_comm, rev_unit, app_assoc. simpl.
    rewrite Pop_snoc, (assertT_value x Hx), (IH Hxs). reflexivity.
Qed.

(** After [Append] of the items [xs], which fit and none of which is a
    nil value of an interface type, removing them all with [Shift] returns
    them in the order of insertion, and removing them all with [Pop]
    returns them in the reverse order; the deque is empty again. *)
Theorem deque_removal_order (c : Z) (xs : list T) :
  c < 0 \/ Z.of_nat (length xs) <= c ->
  Forall (fun x => nil_boxed x = false) xs ->
  calls (NewCappedDeque c) ((OpAppend <$> xs) ++ repeat OpShift (length xs)) =
    (((fun _ => RetBool true) <$> xs) ++ (RetItem <$> xs),
     NewCappedDeque c) /\
  calls (NewCappedDeque c) ((OpAppend <$> xs) ++ repeat OpPop (length xs)) =
    (((fun _ => RetBool true) <$> xs) ++ (RetItem <$> rev xs),
     NewCappedDeque c).
Proof.
  intros Hroom Hxs.
  assert (Happ : calls (NewCappedDeque c) (OpAppend <$> xs) =
                 ((fun _ => RetBool true) <$> xs,
                  {| container := xs; capacity := c |})).
  { rewrite calls_appends; [reflexivity|].
    unfold Size, GoList.Len. simpl. lia. }
  assert (Hs := calls_shifts c xs [] Hxs). rewrite app_nil_r in Hs.
  assert (Hp := calls_pops c [] xs Hxs). simpl in Hp.
  split; rewrite calls_app, Happ; simpl.
  - rewrite Hs. reflexivity.
  - rewrite Hp. reflexivity.
Qed.

(** An insert, into a deque that has room, of an item that is not a nil
    value of an interface type, followed by a removal at the same end,
    returns the inserted item and gives back the deque as it was. *)
Theorem deque_insert_remove_round_trip s item :
  capacity s < 0 \/ Size s < capacity s ->
  nil_boxed item = false ->
  Pop (snd (Append s item)) = (Returns item, s) /\
  Shift (snd (Prepend s item)) = (Returns item, s).
Proof.
  intros Hroom Hitem.
  rewrite DequeFacts.Append_room, DequeFacts.Prepend_room by exact Hroom.
  simpl. rewrite Pop_snoc, Shift_cons, (assertT_value item Hitem).
  destruct s; split; reflexivity.
Qed.

(** A nil value of an interface type can be inserted but not read back:
    on a deque with room, after [Append] of such an item [Last] panics and
    [Pop] panics after it has removed the item, and likewise [First] and
    [Shift] after [Prepend]; the deque is then as before the insert. *)
Theorem deque_nil_interface_item_panics s item :
  capacity s < 0 \/ Size s < capacity s ->
  nil_boxed item = true ->
  fst (Append s item) = true /\ fst (Prepend s item) = true /\
  Last (snd (Append s item)) = Panics /\
  Pop (snd (Append s item)) = (Panics, s) /\
  First (snd (Prepend s item)) = Panics /\
  Shift (snd (Prepend s item)) = (Panics, s).
Proof.
  intros Hroom Hitem.
  rewrite DequeFacts.Append_room, DequeFacts.Prepend_room by exact Hroom.
  simpl. rewrite Pop_snoc, Shift_cons, (assertT_nil item Hitem).
  unfold Last, First, GoList.Back, GoList.Front. simpl.
  rewrite last_snoc, (assertT_nil item Hitem).
  destruct s; repeat split; reflexivity.
Qed.

(** [Full] tells exactly when an insert is refused: [Append] and [Prepend]
    return the negation of [Full], and a refused insert changes nothing. *)
Theorem deque_full_iff_insert_refused s item :
  fst (Append s item) = negb (Full s) /\
  fst (Prepend s item) = negb (Full s) /\
  (Full s = true -> snd (Append s item) = s /\ snd (Prepend s item) = s).
Proof.
  unfold Append, Prepend, Full.
  destruct (Z.ltb_spec (capacity s) 0),
    (Z.ltb_spec (GoList.Len (container s)) (capacity s)),
    (Z.leb_spec 0 (capacity s)),
    (Z.leb_spec (capacity s) (GoList.Len (container s)));
    simpl; try lia; repeat split; try reflexivity; discriminate.
Qed.

Lemma call_capacity s (o : @op T) : capacity (snd (call s o)) = capacity s.
Proof.
  destruct o as [x|x| |]; simpl.
  - unfold Append. destruct (_ || _); reflexivity.
  - unfold Prepend. destruct (_ || _); reflexivity.
  - unfold Pop. destruct (GoList.Back _); reflexivity.
  - unfold Shift. destruct (GoList.Front _); reflexivity.
Qed.

Lemma call_size_bound s (o : @op T) :
  0 <= capacity s -> Size s <= capacity s ->
  Size (snd (call s o)) <= capacity s.
Proof.
  intros Hc Hs. destruct o as [x|x| |]; simpl.
  - destruct (Z_lt_le_dec (Size s) (capacity s)) as [Hlt|Hge].
    + rewrite DequeFacts.Append_room by lia. unfold Size in *. simpl.
      change (container s ++ [x]) with (GoList.PushBack (container s) x).
      rewrite DequeFacts.Len_PushBack. lia.
    + rewrite DequeFacts.Append_full by lia. exact Hs.
  - destruct (Z_lt_le_dec (Size s) (capacity s)) as [Hlt|Hge].
    + rewrite DequeFacts.Prepend_room by lia. unfold Size in *. simpl.
      change (x :: container s) with (GoList.PushFront (container s) x).
      rewrite DequeFacts.Len_PushFront. lia.
    + rewrite DequeFacts.Prepend_full by lia. exact Hs.
  - destruct (Empty s) eqn:He.
    + rewrite DequeFacts.Pop_empty by exact He. exact Hs.
    + destruct (DequeFacts.Pop_nonempty s He) as [Hsz _].
      destruct (Pop s) as [v s']. simpl in *. lia.
  - destruct (Empty s) eqn:He.
    + rewrite DequeFacts.Shift_empty by exact He. exact Hs.
    + destruct (DequeFacts.Shift_nonempty s He) as [Hsz _].
      destruct (Shift s) as [v s']. simpl in *. lia.
Qed.

Lemma calls_capacity ops : forall s,
  capacity (snd (calls s ops)) = capacity s.
Proof.
  induction ops as [|o ops IH]; intros s; [reflexivity|].
  rewrite DequeFacts.calls_snd_cons, IH. apply call_capacity.
Qed.

(** No sequence of calls changes what [Capacity] returns. *)
Theorem deque_capacity_immutable ops s :
  Capacity (snd (calls s ops)) = Capacity s.
Proof. unfold Capacity. apply calls_capacity. Qed.

(** Whatever is called on a deque created with a capacity [c >= 0], its
    size stays between 0 and [c]. *)
Theorem deque_size_within_capacity (c : Z) ops :
  0 <= c ->
  0 <= Size (snd (calls (NewCappedDeque c) ops)) <= c.
Proof.
  intros Hc. split; [apply DequeFacts.Len_nonneg|].
  assert (Hgen : forall ops s, capacity s = c -> Size s <= c ->
                               Size (snd (calls s ops)) <= c).
  { clear ops. induction ops as [|o ops IH]; intros s Hcap Hs; [exact Hs|].
    rewrite DequeFacts.calls_snd_cons. apply IH.
    - rewrite call_capacity. exact Hcap.
    - rewrite <- Hcap. apply call_size_bound; lia. }
  apply Hgen; [reflexivity|]. unfold Size, GoList.Len. simpl. exact Hc.
Qed.

(** Whatever is called on a deque made by [NewDeque], it is never full and
    the next [Append] or [Prepend] returns [true]. *)
Theorem deque_unbounded_never_full ops :
  let s := snd (calls NewDeque ops) in
  Full s = false /\
  forall item, fst (Append s item) = true /\ fst (Prepend s item) = true.
Proof.
  intros s.
  assert (Hcap : capacity s = -1).
  { subst s. apply (calls_capacity ops NewDeque). }
  split.
  - unfold Full. rewrite Hcap. reflexivity.
  - intros item.
    rewrite DequeFacts.Append_room, DequeFacts.Prepend_room by lia.
    split; reflexivity.
Qed.

(** A peek shows the item that the removal at the same end returns next. *)
Theorem deque_peek_is_next_removal s :
  Last s = fst (Pop s) /\ First s = fst (Shift s).
Proof.
  unfold Last, Pop, First, Shift.
  destruct (GoList.Back (container s)), (GoList.Front (container s));
    split; reflexivity.
Qed.

(** On a deque that is not empty, an insert at one end, accepted or
    refused, does not change what the other end shows. *)
Theorem deque_insert_keeps_other_end s item :
  Empty s = false ->
  First (snd (Append s item)) = First s /\
  Last (snd (Prepend s item)) = Last s.
Proof.
  intros He. unfold Empty in He. apply Z.eqb_neq in He.
  destruct s as [l c]. simpl in He.
  destruct l as [|x l]; [contradiction He; reflexivity|].
  unfold Append, Prepend. simpl.
  destruct (_ || _); simpl; split; try reflexivity;
    unfold Last, GoList.Back, GoList.PushFront; simpl;
    destruct l; reflexivity.
Qed.

End DequeLaws.

Lemma deque_removal_order_witness :
  calls (NewCappedDeque 2) [OpAppend 4; OpAppend 6; OpShift; OpShift] =
    ([RetBool true; RetBool true; RetItem 4; RetItem 6], NewCappedDeque 2) /\
  calls (NewCappedDeque 2) [OpAppend 4; OpAppend 6; OpPop; OpPop] =
    ([RetBool true; RetBool true; RetItem 6; RetItem 4], NewCappedDeque 2).
Proof.
  apply (deque_removal_order (T:=Z) 2 [4; 6]).
  - right. simpl. lia.
  - repeat constructor.
Defined.

Lemma deque_insert_remove_round_trip_witness :
  let s := {| container := [1; 2]; capacity := 3 |} in
  Pop (snd (Append s 4)) = (Returns 4, s) /\
  Shift (snd (Prepend s 4)) = (Returns 4, s).
Proof.
  apply (deque_insert_remove_round_trip
           (T:=Z) {| container := [1; 2]; capacity := 3 |} 4).
  - right. reflexivity.
  - reflexivity.
Defined.

Lemma deque_nil_interface_item_panics_witness :
  let s := {| container := [Some 1]; capacity := -1 |} in
  fst (Append s None) = true /\ fst (Prepend s None) = true /\
  Last (snd (Append s None)) = Panics /\
  Pop (snd (Append s None)) = (Panics, s) /\
  First (snd (Prepend s None)) = Panics /\
  Shift (snd (Prepend s None)) = (Panics, s).
Proof.
  apply (deque_nil_interface_item_panics
           (T:=option Z) {| container := [Some 1]; capacity := -1 |} None).
  - left. simpl. lia.
  - reflexivity.
Defined.

Lemma deque_full_iff_insert_refused_witness :
  snd (Append (NewCappedDeque 0) 4) = NewCappedDeque 0 /\
  snd (Prepend (NewCappedDeque 0) 4) = NewCappedDeque 0.
Proof.
  apply (deque_full_iff_insert_refused (T:=Z) (NewCappedDeque 0) 4).
  reflexivity.
Defined.

Lemma deque_size_within_capacity_witness :
  0 <= Size (snd (calls (NewCappedDeque 1)
                    [OpAppend 4; OpPrepend 6; OpPop; OpAppend 8])) <= 1.
Proof.
  apply (deque_size_within_capacity (T:=Z) 1). lia.
Defined.

Lemma deque_insert_keeps_other_end_witness :
  First (snd (Append (snd (Append NewDeque 4)) 6)) =
    First (snd (Append NewDeque 4)) /\
  Last (snd (Prepend (snd (Append NewDeque 4)) 6)) =
    Last (snd (Append NewDeque 4)).
Proof.
  apply (deque_insert_keeps_other_end (T:=Z) (snd (Append NewDeque 4)) 6).
  reflexivity.
Defined.

End DequeLaws.

(** * Properties of the stack *)

Module StackFacts.
Import Stack.

Section StackFacts.
Context {T : Type} `{GoZero T} `{GoBoxed T}.

Implicit Types (s : Stack T) (item : T).

Lemma stack_pushes_container (xs : list T) : forall s,
  Deque.capacity (Deque s) < 0 ->
  pushes s xs =
    {| Deque := {| Deque.container := rev xs ++ Deque.container (Deque s);
                   Deque.capacity := Deque.capacity (Deque s) |} |}.
Proof.
  induction xs as [|x xs IH]; intros s Hc; simpl.
  - destruct s as [[l c]]. reflexivity.
  - rewrite IH.
    + unfold Push. rewrite DequeFacts.Prepend_room by lia. simpl.
      rewrite <- app_assoc. reflexivity.
    + unfold Push. rewrite DequeFacts.Prepend_room by lia. exact Hc.
Qed.

Lemma stack_pops_container (c : Z) (ys : list T) : forall rest,
  Forall (fun y => nil_boxed y = false) ys ->
  pops (length ys)
       {| Deque := {| Deque.container := ys ++ rest;
                      Deque.capacity := c |} |} =
    (Deque.Returns <$> ys,
     {| Deque := {| Deque.container := rest; Deque.capacity := c |} |}).
Proof.
  induction ys as [|y ys IH]; intros rest Hys; simpl; [reflexivity|].
  apply Forall_cons in Hys as [Hy Hys].
  unfold Pop. simpl. unfold Deque.GoList.RemoveFront. simpl.
  rewrite (DequeLaws.assertT_value y Hy), (IH rest Hys). reflexivity.
Qed.

(** Last in, first out: after [Push] of the items [xs], none of which is a
    nil value of an interface type, on a new stack, as many [Pop] calls
    return them in the reverse order and leave the stack as new. *)
Theorem stack_lifo (xs : list T) :
  Forall (fun x => nil_boxed x = false) xs ->
  pops (length xs) (pushes NewStack xs) =
    (Deque.Returns <$> rev xs, NewStack).
Proof.
  intros Hxs. rewrite stack_pushes_container by (simpl; lia). simpl.
  rewrite <- length_rev. apply stack_pops_container.
  apply Forall_rev. exact Hxs.
Qed.

(** On a stack whose deque has room, [Push] of an item that is not a nil
    value of an interface type puts it on top: [Head] shows it, and [Pop]
    returns it and gives back the stack as it was. *)
Theorem stack_push_then_pop s item :
  Deque.capacity (Deque s) < 0 \/
    Deque.Size (Deque s) < Deque.capacity (Deque s) ->
  nil_boxed item = false ->
  Head (Push s item) = Deque.Returns item /\
  Pop (Push s item) = (Deque.Returns item, s).
Proof.
  intros Hroom Hitem. unfold Head, Pop, Push.
  rewrite DequeFacts.Prepend_room by exact Hroom. simpl.
  unfold Deque.First, Deque.Shift. simpl.
  rewrite (DequeLaws.assertT_value item Hitem).
  split; [reflexivity|]. destruct s as [[l c]]. reflexivity.
Qed.

(** [Push] drops the result of [Prepend]: on a stack whose deque is full
    the item is not stored and the stack is left as it was. *)
Theorem stack_push_on_full_is_dropped s item :
  Deque.Full (Deque s) = true -> Push s item = s.
Proof.
  intros Hfull. unfold Deque.Full in Hfull.
  apply andb_prop in Hfull as [Hc Hl].
  apply Z.leb_le in Hc. apply Z.leb_le in Hl.
  unfold Push. rewrite DequeFacts.Prepend_full by (unfold Deque.Size; lia).
  destruct s. reflexivity.
Qed.

(** On an empty stack [Pop] and [Head] return the zero value, and [Pop]
    leaves the stack as it was. *)
Theorem stack_empty_returns_zero s :
  Deque.Empty (Deque s) = true ->
  Pop s = (Deque.Returns zero_value, s) /\
  Head s = Deque.Returns zero_value.
Proof.
  intros He. unfold Pop, Head.
  rewrite DequeFacts.Shift_empty by exact He.
  unfold Deque.Empty in He.
  apply Z.eqb_eq, DequeFacts.Len_zero_nil in He.
  unfold Deque.First. rewrite He. destruct s. split; reflexivity.
Qed.

End StackFacts.

Lemma stack_lifo_witness :
  pops 3 (pushes NewStack [4; 6; 8]) =
    ([Deque.Returns 8; Deque.Returns 6; Deque.Returns 4], NewStack).
Proof.
  apply (stack_lifo (T:=Z) [4; 6; 8]). repeat constructor.
Defined.

Lemma stack_push_then_pop_witness :
  let s := pushes NewStack [1; 2] in
  Head (Push s 4) = Deque.Returns 4 /\
  Pop (Push s 4) = (Deque.Returns 4, s).
Proof.
  apply (stack_push_then_pop (T:=Z) (pushes NewStack [1; 2]) 4).
  - left. simpl. lia.
  - reflexivity.
Defined.

Lemma stack_push_on_full_is_dropped_witness :
  Push {| Deque := Deque.NewCappedDeque 0 |} 4 =
    {| Deque := Deque.NewCappedDeque 0 |}.
Proof.
  apply (stack_push_on_full_is_dropped
           (T:=Z) {| Deque := Deque.NewCappedDeque 0 |} 4).
  reflexivity.
Defined.

Lemma stack_empty_returns_zero_witness :
  Pop (NewStack (T:=Z)) = (Deque.Returns 0, NewStack) /\
  Head (NewStack (T:=Z)) = Deque.Returns 0.
Proof.
  apply (stack_empty_returns_zero (T:=Z) NewStack). reflexivity.
Defined.

End StackFacts.

(** * Properties of the queue *)

Module QueueFacts.
Import Queue.

Section QueueFacts.
Context {T : Type} `{GoZero T} `{GoBoxed T}.

Implicit Types (q : Queue T) (item : T).

Lemma queue_enqueues_container (xs : list T) : forall q,
  Deque.capacity (Deque q) < 0 ->
  enqueues q xs =
    {| Deque := {| Deque.container := rev xs ++ Deque.container (Deque q);
                   Deque.capacity := Deque.capacity (Deque q) |} |}.
Proof.
  induction xs as [|x xs IH]; intros q Hc; simpl.
  - destruct q as [[l c]]. reflexivity.
  - rewrite IH.
    + unfold Enqueue. rewrite DequeFacts.Prepend_room by lia. simpl.
      rewrite <- app_assoc. reflexivity.
    + unfold Enqueue. rewrite DequeFacts.Prepend_room by lia. exact Hc.
Qed.

Lemma queue_dequeues_container (c : Z) (ys : list T) : forall rest,
  Forall (fun y => nil_boxed y = false) ys ->
  dequeues (length ys)
           {| Deque := {| Deque.container := rest ++ rev ys;
                          Deque.capacity := c |} |} =
    (Deque.Returns <$> ys,
     {| Deque := {| Deque.container := rest; Deque.capacity := c |} |}).
Proof.
  induction ys as [|y ys IH]; intros rest Hys; simpl.
  - rewrite app_nil_r. reflexivity.
  - apply Forall_cons in Hys as [Hy Hys].
    unfold Dequeue. simpl. rewrite app_assoc, DequeLaws.Pop_snoc.
    rewrite (DequeLaws.assertT_value y Hy), (IH rest Hys). reflexivity.
Qed.

(** First in, first out: after [Enqueue] of the items [xs], none of which
    is a nil value of an interface type, on a new queue, as many [Dequeue]
    calls return them in the order of arrival and leave the queue as
    new. *)
Theorem queue_fifo (xs : list T) :
  Forall (fun x => nil_boxed x = false) xs ->
  dequeues (length xs) (enqueues NewQueue xs) =
    (Deque.Returns <$> xs, NewQueue).
Proof.
  intros Hxs. rewrite queue_enqueues_container by (simpl; lia). simpl.
  rewrite app_nil_r.
  apply (queue_dequeues_container (-1) xs [] Hxs).
Qed.

(** After [Enqueue] of [x], which is not a nil value of an interface type,
    and then of the items [xs] on a new queue, [Head] shows [x], the oldest
    item, and [Dequeue] returns it. *)
Theorem queue_head_is_oldest (x : T) (xs : list T) :
  nil_boxed x = false ->
  Head (enqueues NewQueue (x :: xs)) = Deque.Returns x /\
  fst (Dequeue (enqueues NewQueue (x :: xs))) = Deque.Returns x.
Proof.
  intros Hx. rewrite queue_enqueues_container by (simpl; lia). simpl.
  rewrite app_nil_r. unfold Head, Dequeue. simpl.
  rewrite DequeLaws.Pop_snoc. unfold Deque.Last, Deque.GoList.Back. simpl.
  rewrite last_snoc, (DequeLaws.assertT_value x Hx). split; reflexivity.
Qed.

(** [Enqueue] drops the result of [Prepend]: on a queue whose deque is
    full the item is not stored and the queue is left as it was. *)
Theorem queue_enqueue_on_full_is_dropped q item :
  Deque.Full (Deque q) = true -> Enqueue q item = q.
Proof.
  intros Hfull. unfold Deque.Full in Hfull.
  apply andb_prop in Hfull as [Hc Hl].
  apply Z.leb_le in Hc. apply Z.leb_le in Hl.
  unfold Enqueue.
  rewrite DequeFacts.Prepend_full by (unfold Deque.Size; lia).
  destruct q. reflexivity.
Qed.

(** On an empty queue [Dequeue] and [Head] return the zero value, and
    [Dequeue] leaves the queue as it was. *)
Theorem queue_empty_returns_zero q :
  Deque.Empty (Deque q) = true ->
  Dequeue q = (Deque.Returns zero_value, q) /\
  Head q = Deque.Returns zero_value.
Proof.
  intros He. unfold Dequeue, Head.
  rewrite DequeFacts.Pop_empty by exact He.
  unfold Deque.Empty in He.
  apply Z.eqb_eq, DequeFacts.Len_zero_nil in He.
  unfold Deque.Last. rewrite He. destruct q. split; reflexivity.
Qed.

End QueueFacts.

Lemma queue_fifo_witness :
  dequeues 3 (enqueues NewQueue [4; 6; 8]) =
    ([Deque.Returns 4; Deque.Returns 6; Deque.Returns 8], NewQueue).
Proof.
  apply (queue_fifo (T:=Z) [4; 6; 8]). repeat constructor.
Defined.

Lemma queue_head_is_oldest_witness :
  Head (enqueues NewQueue [4; 6; 8]) = Deque.Returns 4 /\
  fst (Dequeue (enqueues NewQueue [4; 6; 8])) = Deque.Returns 4.
Proof.
  apply (queue_head_is_oldest (T:=Z) 4 [6; 8]). reflexivity.
Defined.

Lemma queue_enqueue_on_full_is_dropped_witness :
  Enqueue {| Deque := Deque.NewCappedDeque 0 |} 4 =
    {| Deque := Deque.NewCappedDeque 0 |}.
Proof.
  apply (queue_enqueue_on_full_is_dropped
           (T:=Z) {| Deque := Deque.NewCappedDeque 0 |} 4).
  reflexivity.
Defined.

Lemma queue_empty_returns_zero_witness :
  Dequeue (NewQueue (T:=Z)) = (Deque.Returns 0, NewQueue) /\
  Head (NewQueue (T:=Z)) = Deque.Returns 0.
Proof.
  apply (queue_empty_returns_zero (T:=Z) NewQueue). reflexivity.
Defined.

End QueueFacts.

(** * Further properties of the priority queue *)

Module PQueueLaws.
Import PQueue.

Section PQueueLaws.
Context {T : Type} `{GoZero T}.

Implicit Types (pq : PQueue T) (ty : PQType).

(** A queue reached from a new one is well formed and in heap order. *)
Lemma run_reach ty (ops : list (@op T)) pq :
  run (NewPQueue ty) ops = Ok pq -> wf ty pq /\ all_ord ty pq.
Proof.
  intros Hrun. destruct (PQueueFacts.NewPQueue_wf (T:=T) ty) as [Hwf Hord].
  destruct (PQueueFacts.run_ok ty ops _ Hwf Hord) as (pq' & Hrun' & Hw & Ho).
  rewrite Hrun in Hrun'. inversion Hrun'; subst. split; assumption.
Qed.

Lemma omap_id_length (l : list (option (item T))) :
  (forall i x, l !! i = Some x -> is_Some x) ->
  length (omap id l) = length l.
Proof.
  induction l as [|[a|] l IH]; intros Hall; simpl.
  - reflexivity.
  - f_equal. apply IH. intros i x Hi. apply (Hall (S i)). exact Hi.
  - destruct (Hall 0%nat None) as [x Hx]; [reflexivity | discriminate].
Qed.

Lemma wf_stored_length ty pq :
  wf ty pq -> Z.of_nat (length (stored pq)) = elemsCount pq.
Proof.
  intros Hwf. assert (Hlen := PQueueFacts.wf_length _ _ Hwf).
  destruct Hwf as ([_ H0] & Hl & _).
  unfold stored. rewrite length_fmap.
  destruct (items pq) as [|x l] eqn:Hitems; [discriminate|].
  simpl in H0. inversion H0; subst x. simpl.
  rewrite omap_id_length; [simpl in Hlen; lia|].
  intros i x Hi.
  destruct (Hl (Z.of_nat (S i))) as [it Hit].
  { apply lookup_lt_Some in Hi. simpl in Hlen. lia. }
  apply PQueueFacts.entry_Some in Hit as [_ Hit].
  rewrite Nat2Z.id, Hitems in Hit. simpl in Hit.
  rewrite Hi in Hit. inversion Hit. eauto.
Qed.

(** After any sequence of [Push] and [Pop] calls on a new queue, [Size] is
    the number of stored pairs, and [Empty] holds exactly when no pair is
    stored. *)
Theorem pq_size_counts_stored ty (ops : list (@op T)) pq :
  run (NewPQueue ty) ops = Ok pq ->
  Size pq = Z.of_nat (length (stored pq)) /\
  (Empty pq = true <-> stored pq = []).
Proof.
  intros Hrun. destruct (run_reach ty ops pq Hrun) as [Hwf _].
  assert (Hlen := wf_stored_length ty pq Hwf).
  unfold Size, Empty, size. split; [lia|].
  rewrite Z.eqb_eq. split.
  - intros Hz. destruct (stored pq); [reflexivity | simpl in Hlen; lia].
  - intros Hnil. rewrite Hnil in Hlen. simpl in Hlen. lia.
Qed.

(** On a queue reached by any sequence of calls, [Push] returns, adds
    exactly the pushed pair to the stored pairs and raises [Size] by
    one. *)
Theorem pq_push_adds_pair ty (ops : list (@op T)) pq (v : T) (p : Z) :
  run (NewPQueue ty) ops = Ok pq ->
  exists pq',
    Push pq v p = Ok pq' /\
    stored pq' ≡ₚ (v, p) :: stored pq /\
    Size pq' = Size pq + 1.
Proof.
  intros Hrun. destruct (run_reach ty ops pq Hrun) as [Hwf Hord].
  destruct (PQueueFacts.Push_ok ty pq v p Hwf Hord)
    as (pq' & Hpush & _ & _ & Hn & Hperm).
  exists pq'. split; [exact Hpush|]. split; [|exact Hn].
  apply PQueueFacts.stored_Permutation in Hperm. rewrite Hperm. simpl.
  symmetry. apply Permutation_cons_append.
Qed.

(** On a queue that is not empty, reached by any sequence of [Push] and
    [Pop] calls, [Pop] returns the pair that [Head] shows, whose priority
    dominates that of every stored pair; it removes exactly that pair from
    the stored pairs and lowers [Size] by one. *)
Theorem pq_pop_removes_head ty (ops : list (@op T)) pq :
  run (NewPQueue ty) ops = Ok pq ->
  Empty pq = false ->
  exists v p pq',
    Head pq = Ok (v, p) /\
    Pop pq = Ok ((v, p), pq') /\
    stored pq ≡ₚ (v, p) :: stored pq' /\
    Size pq' = Size pq - 1 /\
    forall v' p', (v', p') ∈ stored pq ->
      match ty with
      | MAXPQ => p' <= p
      | MINPQ => p <= p'
      end.
Proof.
  intros Hrun Hne. destruct (run_reach ty ops pq Hrun) as [Hwf Hord].
  assert (Hn := PQueueFacts.wf_count_nonneg _ _ Hwf).
  unfold Empty, size in Hne. apply Z.eqb_neq in Hne.
  destruct (PQueueFacts.Pop_ok ty pq Hwf Hord)
    as (m & pq' & Hm & Hpop & _ & _ & Hn' & Hperm); [lia|].
  destruct (PQueueFacts.Head_ok ty pq Hwf) as (m' & Hm' & Hhead); [lia|].
  rewrite Hm in Hm'. inversion Hm'; subst m'.
  exists (value m), (priority m), pq'.
  split; [exact Hhead|]. split; [exact Hpop|]. split; [|split].
  - apply PQueueFacts.stored_Permutation in Hperm. rewrite Hperm. simpl.
    symmetry. apply Permutation_cons_append.
  - exact Hn'.
  - intros v' p' Hin.
    assert (Hd := PQueueFacts.head_dominates_stored
                    ty pq m Hwf Hord Hm v' p' Hin).
    destruct ty; exact Hd.
Qed.

Lemma pops_empty (m : nat) : forall pq,
  size pq < 1 -> pops m pq = Ok (repeat (zero_value, 0) m, pq).
Proof.
  induction m as [|m IH]; intros pq Hs; simpl; [reflexivity|].
  rewrite PQueueFacts.heap_Pop_empty by exact Hs. simpl.
  rewrite IH by exact Hs. reflexivity.
Qed.

Lemma pops_add (n m : nat) : forall pq,
  pops (n + m) pq =
    let* r1 := pops n pq in
    let* r2 := pops m (snd r1) in
    Ok (fst r1 ++ fst r2, snd r2).
Proof.
  induction n as [|n IH]; intros pq; simpl.
  - destruct (pops m pq) as [[rs pq']| |]; reflexivity.
  - destruct (Pop pq) as [[r pq1]| |]; simpl; try reflexivity.
    rewrite IH. destruct (pops n pq1) as [[rs1 pq2]| |]; simpl;
      try reflexivity.
    destruct (pops m pq2) as [[rs2 pq3]| |]; reflexivity.
Qed.

(** After the [Push] calls of a list [l] on a new queue, [Pop] calls beyond
    the first [length l] find the queue empty: each returns the zero value
    with priority 0, and the queue stays empty. *)
Theorem pq_pops_past_empty ty (l : list (T * Z)) (m : nat) :
  exists pq rs pq',
    pushes (NewPQueue ty) l = Ok pq /\
    pops (length l + m) pq = Ok (rs ++ repeat (zero_value, 0) m, pq') /\
    rs ≡ₚ l /\
    Empty pq' = true.
Proof.
  destruct (PQueueFacts.NewPQueue_wf (T:=T) ty) as [Hwf Hord].
  destruct (PQueueFacts.pushes_ok ty l _ Hwf Hord)
    as (pq & Hrun & Hwf1 & Hord1 & Hn1 & Hperm1).
  simpl in Hn1, Hperm1.
  destruct (PQueueFacts.pops_ok ty (length l) pq Hwf1 Hord1)
    as (rs & pq' & Hpops & Hwf2 & _ & Hn2 & Hperm2 & _); [lia|].
  exists pq, rs, pq'. split; [exact Hrun|]. split; [|split].
  - rewrite pops_add, Hpops. simpl.
    rewrite pops_empty by (unfold size; lia). reflexivity.
  - rewrite <- Hperm1, Hperm2.
    rewrite (PQueueFacts.wf_empty_stored ty pq' Hwf2) by lia.
    rewrite app_nil_r. reflexivity.
  - unfold Empty, size. apply Z.eqb_eq. lia.
Qed.

(** On a queue reached by any sequence of calls, which is in heap order,
    [swim] and [sink] from any live index exchange nothing and return the
    queue as it is. *)
Theorem pq_swim_sink_keep_ordered_heap ty (ops : list (@op T)) pq (k : Z) :
  run (NewPQueue ty) ops = Ok pq ->
  1 <= k <= Size pq ->
  swim pq k = Ok pq /\ sink pq k = Ok pq.
Proof.
  intros Hrun Hk. unfold Size, size in Hk.
  destruct (run_reach ty ops pq Hrun) as [Hwf Hord].
  split.
  - unfold swim. simpl. destruct (Z.ltb_spec 1 k) as [Hk1|Hk1];
      [|reflexivity].
    assert (Hq : k ÷ 2 = k / 2) by PQueueFacts.dlia. rewrite Hq.
    rewrite (PQueueFacts.less_ok ty) by (try exact Hwf; PQueueFacts.dlia).
    simpl.
    rewrite (proj2 (PQueueFacts.comparator_of_false ty _ _));
      [reflexivity|].
    apply Hord. lia.
  - unfold sink. simpl. unfold size at 1.
    destruct (Z.leb_spec (2 * k) (elemsCount pq)) as [Hin|Hout];
      [|reflexivity].
    destruct (PQueueFacts.favoured_child ty pq k Hwf) as (c & -> & Hfav);
      [lia | exact Hin |].
    simpl. destruct Hfav as (Hjk & Hj & _).
    rewrite (PQueueFacts.less_ok ty) by (try exact Hwf; lia). simpl.
    rewrite (proj2 (PQueueFacts.comparator_of_false ty _ _));
      [reflexivity|].
    rewrite <- Hjk at 1. apply Hord. exact Hj.
Qed.

End PQueueLaws.

Lemma pq_size_counts_stored_witness :
  let pq := {| items := [None; Some (newItem 7 1)]; elemsCount := 1;
               comparator := max |} in
  Size pq = Z.of_nat (length (stored pq)) /\
  (Empty pq = true <-> stored pq = []).
Proof.
  apply (pq_size_counts_stored (T:=Z) MAXPQ [OpPush 7 1]). reflexivity.
Defined.

Lemma pq_push_adds_pair_witness :
  let pq := {| items := [None; Some (newItem 7 1)]; elemsCount := 1;
               comparator := max |} in
  exists pq',
    Push pq 9 5 = Ok pq' /\
    stored pq' ≡ₚ (9, 5) :: stored pq /\
    Size pq' = Size pq + 1.
Proof.
  apply (pq_push_adds_pair (T:=Z) MAXPQ [OpPush 7 1]). reflexivity.
Defined.

Lemma pq_pop_removes_head_witness :
  let pq := {| items := [None; Some (newItem 7 1)]; elemsCount := 1;
               comparator := min |} in
  exists v p pq',
    Head pq = Ok (v, p) /\
    Pop pq = Ok ((v, p), pq') /\
    stored pq ≡ₚ (v, p) :: stored pq' /\
    Size pq' = Size pq - 1 /\
    forall v' p', (v', p') ∈ stored pq -> p <= p'.
Proof.
  apply (pq_pop_removes_head (T:=Z) MINPQ [OpPush 7 1]); reflexivity.
Defined.

Lemma pq_swim_sink_keep_ordered_heap_witness :
  let pq := {| items := [None; Some (newItem 7 3); Some (newItem 8 2)];
               elemsCount := 2; comparator := max |} in
  swim pq 2 = Ok pq /\ sink pq 2 = Ok pq.
Proof.
  apply (pq_swim_sink_keep_ordered_heap
           (T:=Z) MAXPQ [OpPush 8 2; OpPush 7 3]).
  - reflexivity.
  - simpl. lia.
Defined.

End PQueueLaws.
